(** * Duplicate analysis of a Google Drive listing (find_dupes.go)

    A shallow embedding of the analysis engine of [find_dupes.go]: the
    [File] records, the [RemoteManifest] built from a listing, the filter
    policy [ignoreFile], [filterDuplicateFiles], [analyzeDuplicates] and the
    error path of [getGoogleDriveManifest] and [main].

    The functions are embedded twice. On values, a slice of [*File] is the
    list of the records it leads to and a map is a [gmap]; the claims about
    what the report contains are proved there. On a store, a slice is a
    view of a backing array of pointers, [append] writes into that array or
    allocates a new one, and the manifest is a map of the store; the claim
    that the manifest is left as it was is proved there, together with the
    agreement of the two embeddings.

    Go's fixed-width integers are integers of [Z] with the wrap-around
    written out; the iteration order of a Go map is any permutation of its
    entries; [sort.Slice], which belongs to Go's standard library, is a
    parameter of the development together with the properties of it that
    the proofs rely on. *)

From Stdlib Require Import ZArith Lia.
From stdpp Require Import base numbers list sorting strings gmap fin_maps.

Local Open Scope Z_scope.

(** ** Machine integers *)

(** [uint64(x)]: the value of [x] in 64-bit unsigned arithmetic. *)
Definition to_uint64 (z : Z) : Z := z mod 2 ^ 64.

(** [a + b] on [uint64]. *)
Definition uint64_add (a b : Z) : Z := to_uint64 (a + b).

(** Go's [int] on a 64-bit platform: two's complement, 64 bits. *)
Definition to_int (z : Z) : Z := (z + 2 ^ 63) mod 2 ^ 64 - 2 ^ 63.

(** [a + b] on [int]. *)
Definition int_add (a b : Z) : Z := to_int (a + b).

Definition max_int : Z := 2 ^ 63 - 1.

(** The values of an [int64]. *)
Definition in_int64 (z : Z) : Prop := - 2 ^ 63 ≤ z ≤ 2 ^ 63 - 1.

(** ** Data model *)

(** [type File struct { Path string; Size int64; ContentHash string }] *)
Record File := mkFile {
  Path : string;
  Size : Z;
  ContentHash : string
}.

(** [type Duplication struct]; its [ContentHash] field is written
    [Duplication_ContentHash] here, since [File] has a field of that name. *)
Record Duplication := mkDuplication {
  Duplication_ContentHash : string;
  Files : list File;
  DuplicateCount : Z;
  DuplicateSize : Z
}.

(** [type DuplicateReport struct] *)
Record DuplicateReport := mkDuplicateReport {
  Duplications : list Duplication;
  TotalDuplicateCount : Z;
  TotalDuplicateSize : Z
}.

(** [type RemoteManifest map[string][]*File] *)
Abbreviation RemoteManifest := (gmap string (list File)).

(** ** Loops *)

(** [for idx, x := range l { s = body(s, idx, x) }], started at index [idx]. *)
Fixpoint for_range {A St : Type} (body : St → nat → A → St)
    (idx : nat) (l : list A) (s : St) : St :=
  match l with
  | [] => s
  | x :: l' => for_range body (S idx) l' (body s idx x)
  end.

(** ** Filter policy *)

(** [func ignoreFile(file *File) bool] *)
Definition ignoreFile (file : File) : bool :=
  if Size file <? 1000 then true else false.

(** [func filterDuplicateFiles(files []*File) (filteredFiles []*File)]:
    the result starts as the nil slice and grows by [append]. *)
Definition filterDuplicateFiles (files : list File) : list File :=
  for_range
    (λ filteredFiles _ file,
       if negb (ignoreFile file) then filteredFiles ++ [file]
       else filteredFiles)
    0 files [].

(** ** Duplicate analysis *)

(** The counting loop of [analyzeDuplicates] over the filtered files of one
    bucket; the state is [(duplicateCount, duplicateSize)]. *)
Definition count_body (acc : Z * Z) (idx : nat) (f : File) : Z * Z :=
  if (idx =? 0)%nat then acc
  else (int_add (fst acc) 1, uint64_add (snd acc) (to_uint64 (Size f))).

Definition count_duplicates (filteredFiles : list File) : Z * Z :=
  for_range count_body 0 filteredFiles (0, 0).

(** [report = &DuplicateReport{}] *)
Definition empty_report : DuplicateReport :=
  {| Duplications := []; TotalDuplicateCount := 0; TotalDuplicateSize := 0 |}.

(** The body of the loop [for hash, files := range manifest]. *)
Definition analyze_body (report : DuplicateReport)
    (hash : string) (files : list File) : DuplicateReport :=
  if (length files <=? 1)%nat then report
  else
    let filteredFiles := filterDuplicateFiles files in
    if (length filteredFiles <=? 1)%nat then report
    else
      let duplicateCount := fst (count_duplicates filteredFiles) in
      let duplicateSize := snd (count_duplicates filteredFiles) in
      {| TotalDuplicateCount :=
           int_add (TotalDuplicateCount report) duplicateCount;
         TotalDuplicateSize :=
           uint64_add (TotalDuplicateSize report) duplicateSize;
         Duplications :=
           Duplications report ++
             [ {| Duplication_ContentHash := hash;
                  Files := filteredFiles;
                  DuplicateCount := duplicateCount;
                  DuplicateSize := duplicateSize |} ] |}.

(** The loop over the manifest, on the entries in the order in which
    [range manifest] yields them. *)
Definition analyze_loop (entries : list (string * list File))
  : DuplicateReport :=
  fold_left (λ report e, analyze_body report e.1 e.2) entries empty_report.

(** The comparison handed to [sort.Slice]:
    [Duplications[i].DuplicateSize >= Duplications[j].DuplicateSize]. *)
Definition size_less (di dj : Duplication) : bool :=
  DuplicateSize dj <=? DuplicateSize di.

(** The type of [sort.Slice], as a function from the slice before the call to
    the slice after it. *)
Abbreviation sort_function :=
  (∀ A : Type, (A → A → bool) → list A → list A).

Section Analyze.
(** [sort.Slice(x, less)] of Go's standard library. *)
Variable sort_Slice : sort_function.

(** [analyzeDuplicates] on the entries of the manifest in iteration
    order. *)
Definition analyzeDuplicates_range (entries : list (string * list File))
  : DuplicateReport :=
  let report := analyze_loop entries in
  {| Duplications := sort_Slice Duplication size_less (Duplications report);
     TotalDuplicateCount := TotalDuplicateCount report;
     TotalDuplicateSize := TotalDuplicateSize report |}.

(** [func analyzeDuplicates(manifest RemoteManifest) (report *DuplicateReport)].
    Go leaves the iteration order of a map open, and it may differ from
    one [range] to the next: every order of the entries gives a possible
    run. *)
Inductive analyzeDuplicates (manifest : RemoteManifest)
  : DuplicateReport → Prop :=
| analyzeDuplicates_run (entries : list (string * list File)) :
    entries ≡ₚ map_to_list manifest →
    analyzeDuplicates manifest (analyzeDuplicates_range entries).
End Analyze.

(** The [Duplication] that one pass of the loop body appends for a bucket,
    if it appends one. *)
Definition bucket_duplication (hash : string) (files : list File)
  : option Duplication :=
  let filteredFiles := filterDuplicateFiles files in
  if (length files <=? 1)%nat then None
  else if (length filteredFiles <=? 1)%nat then None
  else Some {| Duplication_ContentHash := hash;
               Files := filteredFiles;
               DuplicateCount := fst (count_duplicates filteredFiles);
               DuplicateSize := snd (count_duplicates filteredFiles) |}.

(** Sum of a list of integers, without wrap-around. *)
Definition Zsum (l : list Z) : Z := foldr Z.add 0 l.

(** ** What is assumed of [sort.Slice]

    [sort.Slice] only swaps elements, so the slice after the call is a
    permutation of the slice before it. *)
Definition sort_permutes (sort : sort_function) : Prop :=
  ∀ (A : Type) (less : A → A → bool) (l : list A), sort A less l ≡ₚ l.

(** The requirement that the documentation of Go's [sort] package puts on
    [less]: "if both Less(i, j) and Less(j, k) are true, then Less(i, k) must
    be true as well; if both are false, then Less(i, k) must be false as
    well". *)
Definition go_transitive {A : Type} (less : A → A → bool) : Prop :=
  (∀ x y z, less x y = true → less y z = true → less x z = true) ∧
  (∀ x y z, less x y = false → less y z = false → less x z = false).

(** The slice is in the order determined by [less]: no element stands behind
    one that it must sort before, unless the two must sort before each
    other. *)
Definition ordered_by {A : Type} (less : A → A → bool) (l : list A) : Prop :=
  ∀ (i j : nat) (x y : A),
    (i < j)%nat → l !! i = Some x → l !! j = Some y →
    less y x = true → less x y = true.

Definition sort_orders (sort : sort_function) : Prop :=
  ∀ (A : Type) (less : A → A → bool) (l : list A),
    go_transitive less → ordered_by less (sort A less l).

(** [sort.Slice] looks at the elements through [less] only: on two slices that
    are related element by element, with comparisons that agree on related
    elements, it makes the same swaps. Only the agreement of the two
    embeddings uses this. *)
Definition sort_parametric (sort : sort_function) : Prop :=
  ∀ (A B : Type) (R : A → B → Prop)
    (lessA : A → A → bool) (lessB : B → B → bool) (l : list A) (k : list B),
    (∀ a b a' b', R a b → R a' b' → lessA a a' = lessB b b') →
    Forall2 R l k → Forall2 R (sort A lessA l) (sort B lessB k).

(** ** Insertion sort

    The insertion sort of Go's [sort] package, with which [sort.Slice] sorts
    a slice of at most twelve elements: for [i] from [a + 1] up, the element
    at [i] is swapped with its left neighbour as long as it is [less] than
    that neighbour. [sift less x rprefix] moves [x] down the already sorted
    prefix, which is held in reverse. It is the sort at which the examples
    below are evaluated. *)
Fixpoint sift {A : Type} (less : A → A → bool) (x : A) (rprefix : list A)
  : list A :=
  match rprefix with
  | [] => [x]
  | y :: r => if less x y then y :: sift less x r else x :: y :: r
  end.

Definition insertionSort (A : Type) (less : A → A → bool) (l : list A)
  : list A :=
  reverse (fold_left (λ rprefix x, sift less x rprefix) l []).

(** ** The scan and [main] *)

(** A non-nil value of Go's [error]. *)
Record error := mkError { Error : string }.

(** [manifest[file.ContentHash] = append(manifest[file.ContentHash], file)];
    a key that is not in the map reads as the nil slice. *)
Definition manifest_add (manifest : RemoteManifest) (file : File)
  : RemoteManifest :=
  <[ContentHash file := default [] (manifest !! ContentHash file) ++ [file]]>
    manifest.

(** [func getGoogleDriveManifest(...) (manifest RemoteManifest, err error)],
    given what [listing.Files(updateChan)] returns: the files and the error,
    [None] for [nil]. The bare [return] on an error returns the named
    results as they stand. *)
Definition getGoogleDriveManifest (listing_Files : list File * option error)
  : RemoteManifest * option error :=
  let manifest : RemoteManifest := ∅ in
  let (files, err) := listing_Files in
  match err with
  | Some _ => (manifest, err)
  | None =>
      (for_range (λ manifest _ file, manifest_add manifest file)
         0 files manifest,
       None)
  end.

(** How [main] ends: with [panic(driveError)], or with the report that it
    prints. *)
Inductive outcome :=
| Panic (driveError : error)
| Printed (report : DuplicateReport).

(** [main] from the return of [wg.Wait()] on, when the goroutine of the scan
    has stored the results of [getGoogleDriveManifest] in [driveManifest] and
    [driveError]. *)
Inductive main
    (sort_Slice : sort_function)
    (listing_Files : list File * option error) : outcome → Prop :=
| main_panic (driveError : error) :
    (getGoogleDriveManifest listing_Files).2 = Some driveError →
    main sort_Slice listing_Files (Panic driveError)
| main_report (report : DuplicateReport) :
    (getGoogleDriveManifest listing_Files).2 = None →
    analyzeDuplicates sort_Slice
      (getGoogleDriveManifest listing_Files).1 report →
    main sort_Slice listing_Files (Printed report).

(** ** The store

    [analyzeDuplicates] receives the manifest by reference: a map whose
    buckets are slices of [*File], that is, views of backing arrays of
    pointers to [File] values. The store holds those maps, arrays and
    values. The report, its [Duplication] values and the slice that holds
    them are allocated by the call and have other types than the arrays and
    records of the manifest: they stay values. *)

(** Addresses. *)
Definition loc := nat.

(** A slice of [*File]: backing array, offset in it, length and capacity. *)
Record slice := mkSlice {
  s_array : loc;
  s_off : nat;
  s_len : nat;
  s_cap : nat
}.

(** The nil slice: length and capacity 0. *)
Definition nil_slice : slice :=
  {| s_array := 0%nat; s_off := 0; s_len := 0; s_cap := 0 |}.

Record heap := mkHeap {
  objects : gmap loc File;
  arrays : gmap loc (list loc);
  maps : gmap loc (gmap string slice)
}.

(** Computations on the store that may panic ([None]). *)
Definition M (A : Type) : Type := heap → option (A * heap).

Definition ret {A : Type} (a : A) : M A := λ h, Some (a, h).

Definition bind {A B : Type} (c : M A) (k : A → M B) : M B :=
  λ h, match c h with
       | Some (a, h') => k a h'
       | None => None
       end.

Notation "'let!' x := c 'in' k" := (bind c (λ x, k))
  (at level 10, x name, c at level 100, k at level 200).

(** [file.Size], through the pointer. *)
Definition load_Size (file : loc) : M Z :=
  λ h, match objects h !! file with
       | Some f => Some (Size f, h)
       | None => None
       end.

(** [s[i]], with its bounds check. *)
Definition index (s : slice) (i : nat) : M loc :=
  λ h, if (i <? s_len s)%nat
       then match arrays h !! s_array s with
            | Some a => match a !! (s_off s + i)%nat with
                        | Some p => Some (p, h)
                        | None => None
                        end
            | None => None
            end
       else None.

(** The pointers that a slice holds. *)
Definition slice_ptrs (s : slice) (h : heap) : option (list loc) :=
  if (s_len s =? 0)%nat then Some []
  else match arrays h !! s_array s with
       | Some a =>
           let ps := take (s_len s) (drop (s_off s) a) in
           if (length ps =? s_len s)%nat then Some ps else None
       | None => None
       end.

(** The records that a slice of pointers leads to. *)
Definition slice_view (s : slice) (h : heap) : option (list File) :=
  match slice_ptrs s h with
  | Some ps => mapM (λ p, objects h !! p) ps
  | None => None
  end.

(** A [Duplication] whose [Files] is a slice of the store. *)
Record Duplication_at := mkDuplication_at {
  ContentHash_at : string;
  Files_at : slice;
  DuplicateCount_at : Z;
  DuplicateSize_at : Z
}.

Record DuplicateReport_at := mkDuplicateReport_at {
  Duplications_at : list Duplication_at;
  TotalDuplicateCount_at : Z;
  TotalDuplicateSize_at : Z
}.

Section Store.
(** [append] allocates a new array when the capacity is used up; Go leaves
    open how much larger than needed the new array is: [surplus] gets the
    old capacity and the length needed. *)
Variable surplus : nat → nat → nat.

(** [append(s, p)] *)
Definition append (s : slice) (p : loc) : M slice :=
  λ h,
    if (s_len s <? s_cap s)%nat then
      match arrays h !! s_array s with
      | Some a =>
          if (s_off s + s_len s <? length a)%nat then
            Some ({| s_array := s_array s; s_off := s_off s;
                     s_len := S (s_len s); s_cap := s_cap s |},
                  {| objects := objects h;
                     arrays := <[s_array s :=
                                   <[(s_off s + s_len s)%nat := p]> a]>
                                 (arrays h);
                     maps := maps h |})
          else None
      | None => None
      end
    else
      match slice_ptrs s h with
      | Some ps =>
          let a := fresh (dom (arrays h)) in
          let extra := surplus (s_cap s) (S (s_len s)) in
          Some ({| s_array := a; s_off := 0;
                   s_len := S (s_len s); s_cap := (S (s_len s) + extra)%nat |},
                {| objects := objects h;
                   arrays := <[a := ps ++ [p] ++ replicate extra 0%nat]>
                               (arrays h);
                   maps := maps h |})
      | None => None
      end.

(** [for idx := range n { s = body(s, idx) }] from index [idx], [n]
    iterations. *)
Fixpoint for_index {St : Type} (body : St → nat → M St)
    (idx n : nat) (s : St) : M St :=
  match n with
  | O => ret s
  | S n' => let! s' := body s idx in for_index body (S idx) n' s'
  end.

(** [ignoreFile] on a [*File]. *)
Definition ignoreFile_at (file : loc) : M bool :=
  let! size := load_Size file in
  ret (if size <? 1000 then true else false).

(** [filterDuplicateFiles] on a slice of the store. *)
Definition filterDuplicateFiles_at (files : slice) : M slice :=
  for_index
    (λ filteredFiles i,
       let! file := index files i in
       let! ignored := ignoreFile_at file in
       if negb ignored then append filteredFiles file
       else ret filteredFiles)
    0 (s_len files) nil_slice.

(** The counting loop on a slice of the store. *)
Definition count_duplicates_at (filteredFiles : slice) : M (Z * Z) :=
  for_index
    (λ acc idx,
       let! f := index filteredFiles idx in
       if (idx =? 0)%nat then ret acc
       else
         let! size := load_Size f in
         ret (int_add (fst acc) 1, uint64_add (snd acc) (to_uint64 size)))
    0 (s_len filteredFiles) (0, 0).

Definition analyze_body_at (report : DuplicateReport_at)
    (hash : string) (files : slice) : M DuplicateReport_at :=
  if (s_len files <=? 1)%nat then ret report
  else
    let! filteredFiles := filterDuplicateFiles_at files in
    if (s_len filteredFiles <=? 1)%nat then ret report
    else
      let! counted := count_duplicates_at filteredFiles in
      ret {| TotalDuplicateCount_at :=
               int_add (TotalDuplicateCount_at report) (fst counted);
             TotalDuplicateSize_at :=
               uint64_add (TotalDuplicateSize_at report) (snd counted);
             Duplications_at :=
               Duplications_at report ++
                 [ {| ContentHash_at := hash;
                      Files_at := filteredFiles;
                      DuplicateCount_at := fst counted;
                      DuplicateSize_at := snd counted |} ] |}.

Fixpoint analyze_loop_at (entries : list (string * slice))
    (report : DuplicateReport_at) : M DuplicateReport_at :=
  match entries with
  | [] => ret report
  | (hash, files) :: entries' =>
      let! report' := analyze_body_at report hash files in
      analyze_loop_at entries' report'
  end.

Variable sort_Slice : sort_function.

Definition size_less_at (di dj : Duplication_at) : bool :=
  DuplicateSize_at dj <=? DuplicateSize_at di.

Definition empty_report_at : DuplicateReport_at :=
  {| Duplications_at := [];
     TotalDuplicateCount_at := 0; TotalDuplicateSize_at := 0 |}.

(** [analyzeDuplicates] on the store, for the entries of the manifest in
    iteration order. *)
Definition analyzeDuplicates_range_at (entries : list (string * slice))
  : M DuplicateReport_at :=
  let! report := analyze_loop_at entries empty_report_at in
  ret {| Duplications_at :=
           sort_Slice Duplication_at size_less_at (Duplications_at report);
         TotalDuplicateCount_at := TotalDuplicateCount_at report;
         TotalDuplicateSize_at := TotalDuplicateSize_at report |}.

(** The entries of the map at [manifest]; ranging over a nil map makes no
    iteration. *)
Definition map_at (manifest : loc) (h : heap) : gmap string slice :=
  default ∅ (maps h !! manifest).

(** [analyzeDuplicates(manifest)] run on the store [h]: the outcome is a
    panic ([None]) or the report with the store after the call. *)
Inductive analyzeDuplicates_at (manifest : loc) (h : heap)
  : option (DuplicateReport_at * heap) → Prop :=
| analyzeDuplicates_at_run (entries : list (string * slice)) :
    entries ≡ₚ map_to_list (map_at manifest h) →
    analyzeDuplicates_at manifest h (analyzeDuplicates_range_at entries h).
End Store.

(** What the manifest at [manifest] holds: for each key the records that the
    pointers of its slice lead to, in order. *)
Definition manifest_view (manifest : loc) (h : heap)
  : option (gmap string (option (list File))) :=
  (λ m : gmap string slice, (λ s, slice_view s h) <$> m) <$> maps h !! manifest.

Definition Duplication_view (h : heap) (d : Duplication_at)
  : option Duplication :=
  match slice_view (Files_at d) h with
  | Some fs => Some {| Duplication_ContentHash := ContentHash_at d;
                       Files := fs;
                       DuplicateCount := DuplicateCount_at d;
                       DuplicateSize := DuplicateSize_at d |}
  | None => None
  end.

Definition report_view (h : heap) (report : DuplicateReport_at)
  : option DuplicateReport :=
  match mapM (Duplication_view h) (Duplications_at report) with
  | Some ds => Some {| Duplications := ds;
                       TotalDuplicateCount := TotalDuplicateCount_at report;
                       TotalDuplicateSize := TotalDuplicateSize_at report |}
  | None => None
  end.

(** ** Definitions for the proofs *)

(** [x] may stand before [y] in a slice ordered by [less]. *)
Definition may_precede {A : Type} (less : A → A → bool) (x y : A) : Prop :=
  less y x = true → less x y = true.

(** Number of file records that a manifest holds. *)
Definition manifest_records (manifest : RemoteManifest) : Z :=
  Zsum ((λ e, Z.of_nat (length e.2)) <$> map_to_list manifest).

(** [h] extends [h0]: the records are the same, and every array of [h0] is
    in [h] with the same contents. *)
Definition frame (h0 h : heap) : Prop :=
  (objects h = objects h0 ∧ maps h = maps h0) ∧
  ∀ a, a ∈ dom (arrays h0) → arrays h !! a = arrays h0 !! a.

(** [s] is empty without capacity, or lives in an array that [h0] does not
    have. *)
Definition owned (h0 h : heap) (s : slice) : Prop :=
  (s_len s = O ∧ s_cap s = O) ∨
  ((s_array s ∉ dom (arrays h0)) ∧
   ∃ a, arrays h !! s_array s = Some a ∧
        (s_off s + s_cap s ≤ length a)%nat ∧ (s_len s ≤ s_cap s)%nat).

(** The filter policy, through a pointer of the store. *)
Definition kept (h : heap) (p : loc) : bool :=
  match objects h !! p with
  | Some f => negb (ignoreFile f)
  | None => false
  end.

(** Every bucket of the manifest can be read: its slice lies within its
    array and holds pointers to records. *)
Definition manifest_ok (manifest : loc) (h : heap) : Prop :=
  ∀ hash files,
    map_at manifest h !! hash = Some files → is_Some (slice_view files h).

(** ** Example manifests and stores *)

(** A file of the largest size that an [int64] holds. *)
Definition huge_file (path : string) : File :=
  {| Path := path; Size := 2 ^ 63 - 1; ContentHash := "h1" |}.

Definition huge_files : list File :=
  [huge_file "a"; huge_file "b"; huge_file "c"; huge_file "d"].

(** One bucket of four such files. *)
Definition huge_manifest : RemoteManifest := {[ "h1" := huge_files ]}.

(** A bucket of three such files and a bucket of two files of 1000 bytes. *)
Definition huge_and_small : RemoteManifest :=
  {[ "h1" := [huge_file "a"; huge_file "b"; huge_file "c"];
     "h2" := [mkFile "x" 1000 "h2"; mkFile "y" 1000 "h2"] ]}.

(** A record of negative size in front of four files of the largest size. *)
Definition negative_and_huge : RemoteManifest :=
  {[ "h1" := mkFile "n" (-5) "h1" :: huge_files ]}.

(** Two files of 2000 bytes with the same hash, and a single small file. *)
Definition scenario_B : RemoteManifest :=
  {[ "h1" := [mkFile "a" 2000 "h1"; mkFile "b" 2000 "h1"];
     "h2" := [mkFile "c" 500 "h2"] ]}.

(** A file below the threshold in front of two files of 2000 bytes. *)
Definition scenario_C_files : list File :=
  [mkFile "a" 100 "h1"; mkFile "b" 2000 "h1"; mkFile "c" 2000 "h1"].

Definition scenario_C : RemoteManifest := {[ "h1" := scenario_C_files ]}.

(** Two groups, of duplicate sizes 3000 and 5000. *)
Definition scenario_D : RemoteManifest :=
  {[ "h1" := [mkFile "a" 3000 "h1"; mkFile "b" 3000 "h1"];
     "h2" := [mkFile "c" 5000 "h2"; mkFile "d" 5000 "h2"] ]}.

(** The manifest of [scenario_C] in a store: the records at 1, 2 and 3, the
    backing array of the bucket at 10, the map at 20. *)
Definition store_C : heap :=
  {| objects := {[ 1%nat := mkFile "a" 100 "h1";
                   2%nat := mkFile "b" 2000 "h1";
                   3%nat := mkFile "c" 2000 "h1" ]};
     arrays := {[ 10%nat := [1; 2; 3]%nat ]};
     maps := {[ 20%nat := {[ "h1" := mkSlice 10%nat 0 3 3 ]} ]} |}.

(** A new array gets as much room to spare as the old capacity. *)
Definition surplus_double (cap needed : nat) : nat := cap.

(** ** The printed report *)

(** ["\n"] *)
Definition newline : string := String (Ascii.ascii_of_nat 10) "".

(** [fmt.Println(s)], as the string that it writes. *)
Definition Println (s : string) : string := s +:+ newline.

Section Print.
(** The verb [%d] of [fmt], [humanize.Bytes] and [english.Plural] are
    library code. *)
Variable fmt_d : Z → string.
Variable humanize_Bytes : Z → string.
Variable english_Plural : Z → string → string → string.

(** [fmt.Printf("Group %d (%s, %s)\n", group,
    english.Plural(duplication.DuplicateCount, "duplicate file", ""),
    humanize.Bytes(duplication.DuplicateSize))] *)
Definition Printf_group (group : Z) (duplication : Duplication) : string :=
  "Group " +:+ fmt_d group +:+ " (" +:+
  english_Plural (DuplicateCount duplication) "duplicate file" "" +:+ ", " +:+
  humanize_Bytes (DuplicateSize duplication) +:+ ")" +:+ newline.

(** The body of the loop over [report.Duplications] in [main]. The state is
    what has been written to the standard output so far, one string for
    each call of [fmt], and the variable [group]. *)
Definition print_group (state : list string * Z) (duplication : Duplication)
  : list string * Z :=
  let out := state.1 ++ [Printf_group state.2 duplication] in
  let out :=
    for_range (λ out (_ : nat) f, out ++ [Println (Path f)])
      0 (Files duplication) out in
  let out := out ++ [Println ""] in
  (out, int_add state.2 1).

(** What [main] writes to the standard output from the report on: the line
    of the totals, the groups, an empty line. *)
Definition print_report (report : DuplicateReport) : list string :=
  let out :=
    [ fmt_d (Z.of_nat (length (Duplications report))) +:+
      " duplicate file groups found (" +:+
      fmt_d (TotalDuplicateCount report) +:+ " files, " +:+
      humanize_Bytes (TotalDuplicateSize report) +:+ ")." +:+
      newline +:+ newline ] in
  let state :=
    for_range (λ state (_ : nat) duplication, print_group state duplication)
      0 (Duplications report) (out, 1) in
  state.1 ++ [Println ""].

(** The strings of one group: its heading, the paths of its files, an empty
    line. *)
Definition group_block (group : Z) (duplication : Duplication) : list string :=
  Printf_group group duplication ::
  ((λ f, Println (Path f)) <$> Files duplication) ++ [Println ""].
End Print.

(** ** Definitions for the further properties *)

(** The files of a listing that carry [hash] and pass the filter, in the
    order of the listing. *)
Definition listed_files (files : list File) (hash : string) : list File :=
  filterDuplicateFiles (filter (λ f, ContentHash f = hash) files).

(** The group that a listing gives for [hash], when it gives one. *)
Definition listed_group (files : list File) (hash : string) : Duplication :=
  {| Duplication_ContentHash := hash;
     Files := listed_files files hash;
     DuplicateCount :=
       to_int (Z.of_nat (length (listed_files files hash)) - 1);
     DuplicateSize :=
       to_uint64 (Zsum (Size <$> tail (listed_files files hash))) |}.

(** A bucket of at least two entries, one of them a pointer to no record
    (the nil pointer, for one). *)
Definition dangling_bucket (h : heap) (files : slice) : Prop :=
  (2 ≤ s_len files)%nat ∧
  ∃ ps, slice_ptrs files h = Some ps ∧
        Exists (λ p, objects h !! p = None) ps.

(** A listing of three files, two of them with the same hash, and the same
    listing in another order. *)
Definition listing_B : list File :=
  [mkFile "a" 2000 "h1"; mkFile "c" 500 "h2"; mkFile "b" 2000 "h1"].

Definition listing_B' : list File :=
  [mkFile "b" 2000 "h1"; mkFile "a" 2000 "h1"; mkFile "c" 500 "h2"].

(** A single small file. *)
Definition scenario_A : RemoteManifest := {[ "h1" := [mkFile "a" 500 "h1"] ]}.

(** A store whose only bucket holds the nil pointer between two records. *)
Definition store_nil : heap :=
  {| objects := {[ 1%nat := mkFile "a" 2000 "h1";
                   2%nat := mkFile "b" 2000 "h1" ]};
     arrays := {[ 10%nat := [1; 0; 2]%nat ]};
     maps := {[ 20%nat := {[ "h1" := mkSlice 10%nat 0 3 3 ]} ]} |}.

(** * Proofs *)

(** ** Machine integers *)

Lemma to_uint64_range z : 0 ≤ to_uint64 z < 2 ^ 64.
Proof. unfold to_uint64. apply Z.mod_pos_bound. lia. Qed.

Lemma to_uint64_small z : 0 ≤ z < 2 ^ 64 → to_uint64 z = z.
Proof. intros H. unfold to_uint64. by apply Z.mod_small. Qed.

Lemma to_uint64_add_l a b : to_uint64 (to_uint64 a + b) = to_uint64 (a + b).
Proof. unfold to_uint64. by rewrite Zplus_mod_idemp_l. Qed.

Lemma to_uint64_add_r a b : to_uint64 (a + to_uint64 b) = to_uint64 (a + b).
Proof. unfold to_uint64. by rewrite Zplus_mod_idemp_r. Qed.

Lemma to_int_small z : - 2 ^ 63 ≤ z ≤ max_int → to_int z = z.
Proof.
  unfold to_int, max_int. intros H.
  rewrite Z.mod_small; lia.
Qed.

Lemma to_int_add_l a b : to_int (to_int a + b) = to_int (a + b).
Proof.
  unfold to_int. f_equal.
  replace ((a + 2 ^ 63) mod 2 ^ 64 - 2 ^ 63 + b + 2 ^ 63)
    with ((a + 2 ^ 63) mod 2 ^ 64 + b) by lia.
  rewrite Zplus_mod_idemp_l. f_equal. lia.
Qed.

(** ** The filter *)

Lemma ignoreFile_spec file : ignoreFile file = true ↔ Size file < 1000.
Proof.
  unfold ignoreFile.
  destruct (Z.ltb_spec (Size file) 1000); split; (done || lia).
Qed.

Lemma ignoreFile_false file : ignoreFile file = false ↔ 1000 ≤ Size file.
Proof.
  unfold ignoreFile.
  destruct (Z.ltb_spec (Size file) 1000); split; (done || lia).
Qed.

Lemma filter_loop_app (files acc : list File) (idx : nat) :
  for_range
    (λ filteredFiles (_ : nat) file,
       if negb (ignoreFile file) then filteredFiles ++ [file]
       else filteredFiles)
    idx files acc
  = acc ++ filter (λ f, ignoreFile f = false) files.
Proof.
  revert acc idx. induction files as [|f files IH]; intros acc idx; simpl.
  - by rewrite app_nil_r.
  - rewrite IH. destruct (ignoreFile f) eqn:Hf; simpl.
    + by rewrite filter_cons_False by congruence.
    + rewrite filter_cons_True by done. by rewrite <- app_assoc.
Qed.

Lemma filterDuplicateFiles_filter files :
  filterDuplicateFiles files = filter (λ f, ignoreFile f = false) files.
Proof. unfold filterDuplicateFiles. by rewrite filter_loop_app. Qed.

Lemma filterDuplicateFiles_size files f :
  f ∈ filterDuplicateFiles files → 1000 ≤ Size f.
Proof.
  rewrite filterDuplicateFiles_filter, list_elem_of_filter.
  intros [Hf _]. by apply ignoreFile_false.
Qed.

(** ** The counting loop *)

Lemma count_loop_tail (l : list File) (idx : nat) (c s : Z) :
  for_range count_body (S idx) l (to_int c, to_uint64 s)
  = (to_int (c + Z.of_nat (length l)), to_uint64 (s + Zsum (Size <$> l))).
Proof.
  revert idx c s. induction l as [|f l IH]; intros idx c s; simpl.
  - by rewrite !Z.add_0_r.
  - unfold count_body at 2. simpl. unfold int_add, uint64_add.
    rewrite to_int_add_l, to_uint64_add_r, to_uint64_add_l, IH.
    unfold fmap. f_equal; f_equal; lia.
Qed.

Lemma count_duplicates_cons f (l : list File) :
  count_duplicates (f :: l)
  = (to_int (Z.of_nat (length l)), to_uint64 (Zsum (Size <$> l))).
Proof.
  unfold count_duplicates. simpl. unfold count_body at 2. simpl.
  change (0, 0) with (to_int 0, to_uint64 0). by rewrite count_loop_tail.
Qed.

Lemma count_duplicates_spec (l : list File) :
  (1 ≤ length l)%nat →
  count_duplicates l
  = (to_int (Z.of_nat (length l) - 1), to_uint64 (Zsum (Size <$> tail l))).
Proof.
  destruct l as [|f l]; simpl; [lia|]. intros _.
  rewrite count_duplicates_cons. do 2 f_equal. lia.
Qed.

(** ** Sums *)

Lemma Zsum_cons (x : Z) (l : list Z) : Zsum (x :: l) = x + Zsum l.
Proof. done. Qed.

Lemma Zsum_Permutation (l1 l2 : list Z) : l1 ≡ₚ l2 → Zsum l1 = Zsum l2.
Proof. induction 1; simpl; lia. Qed.

Lemma Zsum_nonneg (l : list Z) : Forall (λ z, 0 ≤ z) l → 0 ≤ Zsum l.
Proof. induction 1; simpl; lia. Qed.

Lemma Zsum_fmap_Permutation {A} (f : A → Z) (l1 l2 : list A) :
  l1 ≡ₚ l2 → Zsum (f <$> l1) = Zsum (f <$> l2).
Proof. intros H. apply Zsum_Permutation. by rewrite H. Qed.

(** ** The loop over the manifest *)

Lemma analyze_body_bucket report hash files :
  analyze_body report hash files
  = match bucket_duplication hash files with
    | None => report
    | Some d =>
        {| TotalDuplicateCount :=
             int_add (TotalDuplicateCount report) (DuplicateCount d);
           TotalDuplicateSize :=
             uint64_add (TotalDuplicateSize report) (DuplicateSize d);
           Duplications := Duplications report ++ [d] |}
    end.
Proof.
  unfold analyze_body, bucket_duplication.
  destruct (length files <=? 1)%nat; [done|].
  by destruct (length (filterDuplicateFiles files) <=? 1)%nat.
Qed.

Lemma omap_bucket_cons hash files entries :
  omap (uncurry bucket_duplication) ((hash, files) :: entries)
  = match bucket_duplication hash files with
    | Some d => d :: omap (uncurry bucket_duplication) entries
    | None => omap (uncurry bucket_duplication) entries
    end.
Proof. done. Qed.

Lemma analyze_fold entries report c s :
  TotalDuplicateCount report = to_int c →
  TotalDuplicateSize report = to_uint64 s →
  let ds := omap (uncurry bucket_duplication) entries in
  let report' :=
    fold_left (λ report e, analyze_body report e.1 e.2) entries report in
  Duplications report' = Duplications report ++ ds ∧
  TotalDuplicateCount report' = to_int (c + Zsum (DuplicateCount <$> ds)) ∧
  TotalDuplicateSize report' = to_uint64 (s + Zsum (DuplicateSize <$> ds)).
Proof.
  revert report c s.
  induction entries as [|[hash files] entries IH]; intros report c s Hc Hs.
  - simpl. by rewrite app_nil_r, !Z.add_0_r.
  - rewrite omap_bucket_cons. cbn [fold_left fst snd].
    rewrite analyze_body_bucket.
    destruct (bucket_duplication hash files) as [d|] eqn:Hd.
    + edestruct (IH
        {| TotalDuplicateCount :=
             int_add (TotalDuplicateCount report) (DuplicateCount d);
           TotalDuplicateSize :=
             uint64_add (TotalDuplicateSize report) (DuplicateSize d);
           Duplications := Duplications report ++ [d] |}
        (c + DuplicateCount d) (s + DuplicateSize d)) as (H1 & H2 & H3).
      { simpl. unfold int_add. by rewrite Hc, to_int_add_l. }
      { simpl. unfold uint64_add. by rewrite Hs, to_uint64_add_l. }
      cbn zeta. rewrite H1, H2, H3. cbn [Duplications].
      rewrite <- app_assoc, !fmap_cons, !Zsum_cons. cbn [app].
      split; [done|]. split; f_equal; lia.
    + by apply IH.
Qed.

Lemma analyze_loop_spec entries :
  let ds := omap (uncurry bucket_duplication) entries in
  Duplications (analyze_loop entries) = ds ∧
  TotalDuplicateCount (analyze_loop entries)
    = to_int (Zsum (DuplicateCount <$> ds)) ∧
  TotalDuplicateSize (analyze_loop entries)
    = to_uint64 (Zsum (DuplicateSize <$> ds)).
Proof. by apply (analyze_fold entries empty_report 0 0). Qed.

Lemma bucket_duplication_Some hash files d :
  bucket_duplication hash files = Some d ↔
  (2 ≤ length (filterDuplicateFiles files))%nat ∧
  d = {| Duplication_ContentHash := hash;
         Files := filterDuplicateFiles files;
         DuplicateCount :=
           to_int (Z.of_nat (length (filterDuplicateFiles files)) - 1);
         DuplicateSize :=
           to_uint64 (Zsum (Size <$> tail (filterDuplicateFiles files))) |}.
Proof.
  unfold bucket_duplication.
  assert (length (filterDuplicateFiles files) ≤ length files)%nat as Hle.
  { rewrite filterDuplicateFiles_filter. apply length_filter. }
  destruct (Nat.leb_spec (length files) 1).
  { split; [done|]. intros [? _]. lia. }
  destruct (Nat.leb_spec (length (filterDuplicateFiles files)) 1).
  { split; [done|]. intros [? _]. lia. }
  rewrite count_duplicates_spec by lia. simpl.
  split; [intros [= <-]; split; [lia|done] | by intros [_ ->]].
Qed.

Lemma bucket_duplication_None hash files :
  bucket_duplication hash files = None ↔
  (length (filterDuplicateFiles files) < 2)%nat.
Proof.
  destruct (bucket_duplication hash files) as [d|] eqn:Hd.
  - apply bucket_duplication_Some in Hd as [? _]. split; [done|lia].
  - split; [|done]. intros _.
    destruct (decide (length (filterDuplicateFiles files) < 2)%nat) as [|Hn];
      [done|].
    assert (bucket_duplication hash files
            = Some {| Duplication_ContentHash := hash;
         Files := filterDuplicateFiles files;
         DuplicateCount :=
           to_int (Z.of_nat (length (filterDuplicateFiles files)) - 1);
         DuplicateSize :=
           to_uint64 (Zsum (Size <$> tail (filterDuplicateFiles files))) |})
      as Heq by (apply bucket_duplication_Some; split; [lia|done]).
    congruence.
Qed.

(** ** Order *)

Lemma ordered_by_StronglySorted {A} (less : A → A → bool) (l : list A) :
  ordered_by less l ↔ StronglySorted (may_precede less) l.
Proof.
  split.
  - induction l as [|x l IH]; intros Hl; constructor.
    + apply IH. intros i j a b Hij Ha Hb.
      apply (Hl (S i) (S j)); [lia|done..].
    + apply Forall_lookup. intros k y Hy.
      intros Hyx. by apply (Hl 0%nat (S k) x y); [lia|..].
  - induction 1 as [|x l Hl IH Hx]; intros i j a b Hij Ha Hb.
    + by rewrite lookup_nil in Ha.
    + destruct j as [|j]; [lia|]. simpl in Hb.
      destruct i as [|i]; simpl in Ha.
      * injection Ha as <-. rewrite Forall_lookup in Hx. by eapply Hx.
      * apply (IH i j); [lia|done..].
Qed.

Lemma StronglySorted_reverse {A} (R : relation A) (l : list A) :
  StronglySorted (flip R) l → StronglySorted R (reverse l).
Proof.
  induction 1 as [|x l Hl IH Hx].
  - constructor.
  - rewrite reverse_cons.
    apply StronglySorted_app_2; [|done|by repeat constructor].
    intros x1 x2 Hx1 ->%list_elem_of_singleton.
    rewrite Forall_forall in Hx. apply Hx. by apply elem_of_reverse.
Qed.

(** ** Insertion sort meets what is assumed of [sort.Slice] *)

Lemma sift_Permutation {A} (less : A → A → bool) x (rprefix : list A) :
  sift less x rprefix ≡ₚ x :: rprefix.
Proof.
  induction rprefix as [|y r IH]; simpl; [done|].
  destruct (less x y); [|done]. rewrite IH. apply Permutation_swap.
Qed.

Lemma insertion_loop_Permutation {A} (less : A → A → bool) (l acc : list A) :
  fold_left (λ rprefix x, sift less x rprefix) l acc ≡ₚ l ++ acc.
Proof.
  revert acc. induction l as [|x l IH]; intros acc; simpl; [done|].
  rewrite IH, sift_Permutation. by rewrite Permutation_middle.
Qed.

Lemma insertionSort_permutes : sort_permutes insertionSort.
Proof.
  intros A less l. unfold insertionSort.
  by rewrite reverse_Permutation, insertion_loop_Permutation, app_nil_r.
Qed.

Lemma sift_sorted {A} (less : A → A → bool) x (rprefix : list A) :
  go_transitive less →
  StronglySorted (flip (may_precede less)) rprefix →
  StronglySorted (flip (may_precede less)) (sift less x rprefix).
Proof.
  intros [Htt Hff]. induction 1 as [|y r Hr IH Hy]; simpl.
  - by repeat constructor.
  - destruct (less x y) eqn:Hxy.
    + constructor; [done|].
      rewrite sift_Permutation. constructor; [|done].
      intros _. done.
    + constructor; [by constructor|].
      constructor; [unfold flip, may_precede; congruence|].
      eapply Forall_impl; [exact Hy|].
      intros z Hz Hxz. exfalso. unfold flip, may_precede in Hz.
      destruct (less y z) eqn:Hyz.
      * specialize (Htt x z y Hxz (Hz eq_refl)). congruence.
      * specialize (Hff x y z Hxy Hyz). congruence.
Qed.

Lemma insertion_loop_sorted {A} (less : A → A → bool) (l acc : list A) :
  go_transitive less →
  StronglySorted (flip (may_precede less)) acc →
  StronglySorted (flip (may_precede less))
    (fold_left (λ rprefix x, sift less x rprefix) l acc).
Proof.
  intros Hless. revert acc.
  induction l as [|x l IH]; intros acc Hacc; simpl; [done|].
  by apply IH, sift_sorted.
Qed.

Lemma insertionSort_orders : sort_orders insertionSort.
Proof.
  intros A less l Hless. apply ordered_by_StronglySorted.
  apply StronglySorted_reverse, insertion_loop_sorted; [done|constructor].
Qed.

Lemma sift_parametric {A B} (R : A → B → Prop)
    (lessA : A → A → bool) (lessB : B → B → bool) x y l k :
  (∀ a b a' b', R a b → R a' b' → lessA a a' = lessB b b') →
  R x y → Forall2 R l k → Forall2 R (sift lessA x l) (sift lessB y k).
Proof.
  intros Hless Hxy. induction 1 as [|x' y' l k Hxy' Hlk IH]; simpl.
  - by repeat constructor.
  - rewrite (Hless x y x' y') by done.
    destruct (lessB y y'); by repeat constructor.
Qed.

Lemma insertionSort_parametric : sort_parametric insertionSort.
Proof.
  intros A B R lessA lessB l k Hless Hlk. unfold insertionSort.
  apply Forall2_reverse.
  assert (Forall2 R ([] : list A) ([] : list B)) as Hacc by constructor.
  revert Hacc. generalize ([] : list A) ([] : list B).
  induction Hlk as [|x y l k Hxy Hlk IH]; intros acc acc' Hacc; simpl.
  - done.
  - by apply IH, sift_parametric.
Qed.

Lemma size_less_transitive : go_transitive size_less.
Proof.
  unfold size_less. split; intros x y z.
  - rewrite !Z.leb_le. lia.
  - rewrite !Z.leb_gt. lia.
Qed.

(** ** The report *)

Section Report.
Variable sort_Slice : sort_function.
Hypothesis sort_Slice_permutes : sort_permutes sort_Slice.

Lemma analyzeDuplicates_returns (manifest : RemoteManifest) :
  ∃ report, analyzeDuplicates sort_Slice manifest report.
Proof.
  eexists. by apply (analyzeDuplicates_run _ _ (map_to_list manifest)).
Qed.

Lemma report_Duplications (manifest : RemoteManifest) report :
  analyzeDuplicates sort_Slice manifest report →
  Duplications report
    ≡ₚ omap (uncurry bucket_duplication) (map_to_list manifest).
Proof.
  intros [entries Hentries]. simpl.
  rewrite (sort_Slice_permutes _ size_less _).
  destruct (analyze_loop_spec entries) as (-> & _ & _).
  by rewrite Hentries.
Qed.

Lemma report_totals (manifest : RemoteManifest) report :
  analyzeDuplicates sort_Slice manifest report →
  TotalDuplicateCount report
    = to_int (Zsum (DuplicateCount <$> Duplications report)) ∧
  TotalDuplicateSize report
    = to_uint64 (Zsum (DuplicateSize <$> Duplications report)).
Proof.
  intros [entries Hentries]. simpl.
  destruct (analyze_loop_spec entries) as (Hds & -> & ->).
  rewrite Hds.
  rewrite !(Zsum_fmap_Permutation _ _ _ (sort_Slice_permutes _ size_less _)).
  done.
Qed.

Lemma elem_of_report (manifest : RemoteManifest) report d :
  analyzeDuplicates sort_Slice manifest report →
  d ∈ Duplications report ↔
  ∃ hash files,
    manifest !! hash = Some files ∧ bucket_duplication hash files = Some d.
Proof.
  intros Hrun. rewrite (report_Duplications _ _ Hrun), list_elem_of_omap.
  split.
  - intros ([hash files] & Hin & Hd). exists hash, files.
    by apply elem_of_map_to_list in Hin.
  - intros (hash & files & Hin & Hd). exists (hash, files).
    by apply elem_of_map_to_list in Hin.
Qed.
End Report.

Lemma filterDuplicateFiles_length files :
  (length (filterDuplicateFiles files) ≤ length files)%nat.
Proof. rewrite filterDuplicateFiles_filter. apply length_filter. Qed.

Lemma bucket_counts_bound (entries : list (string * list File)) :
  Zsum ((λ e, Z.of_nat (length e.2)) <$> entries) ≤ max_int →
  0 ≤ Zsum (DuplicateCount <$> omap (uncurry bucket_duplication) entries)
    ≤ Zsum ((λ e, Z.of_nat (length e.2)) <$> entries).
Proof.
  assert (∀ l : list (string * list File),
            0 ≤ Zsum ((λ e, Z.of_nat (length e.2)) <$> l)) as Hnonneg.
  { intros l. apply Zsum_nonneg, Forall_fmap, Forall_true. simpl. lia. }
  induction entries as [|[hash files] entries IH]; [simpl; lia|].
  rewrite fmap_cons, Zsum_cons, omap_bucket_cons. cbn [snd]. intros Hle.
  specialize (Hnonneg entries).
  destruct (bucket_duplication hash files) as [d|] eqn:Hd; [|lia].
  apply bucket_duplication_Some in Hd as [Hlen ->].
  pose proof (filterDuplicateFiles_length files).
  rewrite fmap_cons, Zsum_cons. cbn [DuplicateCount].
  rewrite to_int_small by (unfold max_int in *; lia). lia.
Qed.

Lemma bucket_sizes_nonneg (entries : list (string * list File)) :
  Forall (λ z, 0 ≤ z)
    (DuplicateSize <$> omap (uncurry bucket_duplication) entries).
Proof.
  apply Forall_fmap, Forall_forall. intros d Hd.
  apply list_elem_of_omap in Hd as ([hash files] & _ & Hd). simpl in Hd.
  apply bucket_duplication_Some in Hd as [_ ->]. simpl.
  apply to_uint64_range.
Qed.

Lemma tail_sizes_nonneg files :
  0 ≤ Zsum (Size <$> tail (filterDuplicateFiles files)).
Proof.
  apply Zsum_nonneg, Forall_fmap, Forall_forall. intros f Hf. simpl.
  assert (f ∈ filterDuplicateFiles files) as Hin.
  { destruct (filterDuplicateFiles files); [done|]. by right. }
  apply filterDuplicateFiles_size in Hin. lia.
Qed.

(** ** The claims about the report

    Each theorem takes [sort.Slice] with the properties of it that it uses:
    [sort_permutes] where the contents of the report matter, [sort_orders]
    where their order does. *)

(** C1, amended. A bucket of the manifest whose filtered sequence has at least
    two records gives exactly one [Duplication] of the report: its files are
    the records of the bucket that the filter policy does not reject, in
    their original order; its [DuplicateCount] is their number minus one
    (the length of the bucket is an [int], as the length of every slice is);
    its [DuplicateSize] is the sum of the sizes of all of them but the first,
    taken modulo 2^64 as [uint64] addition does, and is that sum itself
    whenever the sum is below 2^64. *)
Theorem analyzeDuplicates_bucket
    (sort_Slice : sort_function)
    (manifest : RemoteManifest) (report : DuplicateReport)
    (hash : string) (files : list File) :
  sort_permutes sort_Slice →
  analyzeDuplicates sort_Slice manifest report →
  manifest !! hash = Some files →
  (2 ≤ length (filterDuplicateFiles files))%nat →
  Z.of_nat (length files) ≤ max_int →
  filterDuplicateFiles files = filter (λ f, ignoreFile f = false) files ∧
  filterDuplicateFiles files `sublist_of` files ∧
  ∃ d,
    d ∈ Duplications report ∧
    (∀ d', d' ∈ Duplications report →
           Duplication_ContentHash d' = hash → d' = d) ∧
    Duplication_ContentHash d = hash ∧
    Files d = filterDuplicateFiles files ∧
    DuplicateCount d = Z.of_nat (length (Files d)) - 1 ∧
    DuplicateSize d = to_uint64 (Zsum (Size <$> tail (Files d))) ∧
    (Zsum (Size <$> tail (Files d)) < 2 ^ 64 →
     DuplicateSize d = Zsum (Size <$> tail (Files d))).
Proof.
  intros Hperm Hrun Hfiles Hlen Hint.
  split; [apply filterDuplicateFiles_filter|].
  split; [rewrite filterDuplicateFiles_filter; apply sublist_filter|].
  eexists. split; [|split].
  - apply (elem_of_report _ Hperm _ _ _ Hrun). exists hash, files.
    split; [done|]. by apply bucket_duplication_Some.
  - intros d' Hd' Hhash.
    apply (elem_of_report _ Hperm _ _ _ Hrun) in Hd'
      as (hash' & files' & Hfiles' & Hd').
    apply bucket_duplication_Some in Hd' as [_ ->]. simpl in Hhash.
    subst hash'. rewrite Hfiles in Hfiles'. by injection Hfiles' as <-.
  - simpl. pose proof (filterDuplicateFiles_length files).
    pose proof (tail_sizes_nonneg files).
    repeat split.
    + apply to_int_small. unfold max_int in *. lia.
    + intros Hsum. by apply to_uint64_small.
Qed.

(** C2, amended. The totals of a report are the sums of the [DuplicateCount]
    and of the [DuplicateSize] of its [Duplications], each taken in the width
    of its type: the count is the sum itself for every manifest of at most
    2^63 - 1 records, the size is the sum modulo 2^64 and is the sum itself
    whenever that is below 2^64. *)
Theorem analyzeDuplicates_totals
    (sort_Slice : sort_function)
    (manifest : RemoteManifest) (report : DuplicateReport) :
  sort_permutes sort_Slice →
  analyzeDuplicates sort_Slice manifest report →
  TotalDuplicateCount report
    = to_int (Zsum (DuplicateCount <$> Duplications report)) ∧
  TotalDuplicateSize report
    = to_uint64 (Zsum (DuplicateSize <$> Duplications report)) ∧
  (manifest_records manifest ≤ max_int →
   TotalDuplicateCount report = Zsum (DuplicateCount <$> Duplications report)) ∧
  (Zsum (DuplicateSize <$> Duplications report) < 2 ^ 64 →
   TotalDuplicateSize report = Zsum (DuplicateSize <$> Duplications report)).
Proof.
  intros Hperm Hrun.
  destruct (report_totals _ Hperm _ _ Hrun) as [Hc Hs].
  pose proof (report_Duplications _ Hperm _ _ Hrun) as Hds.
  repeat split; [done|done|..].
  - intros Hrec. rewrite Hc. apply to_int_small.
    rewrite (Zsum_fmap_Permutation _ _ _ Hds).
    pose proof (bucket_counts_bound (map_to_list manifest) Hrec).
    unfold manifest_records, max_int in *. lia.
  - intros Hsum. rewrite Hs. apply to_uint64_small. split; [|done].
    rewrite (Zsum_fmap_Permutation _ _ _ Hds).
    apply Zsum_nonneg, bucket_sizes_nonneg.
Qed.

Lemma report_sizes_sorted
    (sort_Slice : sort_function)
    (manifest : RemoteManifest) (report : DuplicateReport) :
  sort_orders sort_Slice →
  analyzeDuplicates sort_Slice manifest report →
  StronglySorted Z.ge (DuplicateSize <$> Duplications report).
Proof.
  intros Hord [entries _]. simpl.
  pose proof (Hord _ size_less (Duplications (analyze_loop entries))
                size_less_transitive) as Hsorted.
  apply ordered_by_StronglySorted in Hsorted.
  eapply StronglySorted_fmap; [|exact Hsorted].
  intros d1 d2. unfold may_precede, size_less. rewrite !Z.leb_le. lia.
Qed.

(** C3. The [Duplications] of a report are in descending order of
    [DuplicateSize]: each one is at least as large as the next. The
    comparison [>=] that the code hands to [sort.Slice] is transitive in the
    sense of [go_transitive], which is what [sort_orders] asks for. *)
Theorem analyzeDuplicates_sorted
    (sort_Slice : sort_function)
    (manifest : RemoteManifest) (report : DuplicateReport)
    (i : nat) (d1 d2 : Duplication) :
  sort_orders sort_Slice →
  analyzeDuplicates sort_Slice manifest report →
  Duplications report !! i = Some d1 →
  Duplications report !! (i + 1)%nat = Some d2 →
  DuplicateSize d2 ≤ DuplicateSize d1.
Proof.
  intros Hord Hrun H1 H2.
  pose proof (report_sizes_sorted _ _ _ Hord Hrun) as Hsorted.
  assert (∀ (l : list Z) (j k : nat) a b,
            StronglySorted Z.ge l → (j < k)%nat →
            l !! j = Some a → l !! k = Some b → b ≤ a) as Hlookup.
  { intros l j k a b Hl. revert j k.
    induction Hl as [|x l Hl IH Hx]; intros j k Hjk Ha Hb.
    - by rewrite lookup_nil in Ha.
    - destruct k as [|k]; [lia|]. simpl in Hb. destruct j as [|j]; simpl in Ha.
      + injection Ha as <-. rewrite Forall_lookup in Hx.
        apply Z.ge_le. by eapply Hx.
      + apply (IH j k); [lia|done..]. }
  apply (Hlookup _ i (i + 1)%nat _ _ Hsorted); [lia|..];
    rewrite list_lookup_fmap; [by rewrite H1|by rewrite H2].
Qed.

(** C5. A bucket whose filtered sequence has fewer than two records gives no
    [Duplication] of the report, and the report is the one of the manifest
    without that bucket: the same [Duplications] and the same totals. *)
Theorem analyzeDuplicates_dropped
    (sort_Slice : sort_function)
    (manifest : RemoteManifest) (report : DuplicateReport)
    (hash : string) (files : list File) :
  sort_permutes sort_Slice →
  analyzeDuplicates sort_Slice manifest report →
  manifest !! hash = Some files →
  (length (filterDuplicateFiles files) < 2)%nat →
  (∀ d, d ∈ Duplications report → Duplication_ContentHash d ≠ hash) ∧
  (∀ report',
     analyzeDuplicates sort_Slice (delete hash manifest) report' →
     Duplications report' ≡ₚ Duplications report ∧
     TotalDuplicateCount report' = TotalDuplicateCount report ∧
     TotalDuplicateSize report' = TotalDuplicateSize report).
Proof.
  intros Hperm Hrun Hfiles Hlen.
  apply bucket_duplication_None with (hash := hash) in Hlen.
  split.
  - intros d Hd Hhash.
    apply (elem_of_report _ Hperm _ _ _ Hrun) in Hd
      as (hash' & files' & Hfiles' & Hd).
    assert (hash' = hash) as ->.
    { apply bucket_duplication_Some in Hd as [_ ->]. done. }
    rewrite Hfiles in Hfiles'. injection Hfiles' as <-. congruence.
  - intros report' Hrun'.
    assert (Duplications report' ≡ₚ Duplications report) as Hds.
    { rewrite (report_Duplications _ Hperm _ _ Hrun),
        (report_Duplications _ Hperm _ _ Hrun').
      rewrite <- (map_to_list_delete manifest hash files Hfiles).
      by rewrite omap_bucket_cons, Hlen. }
    destruct (report_totals _ Hperm _ _ Hrun) as [-> ->].
    destruct (report_totals _ Hperm _ _ Hrun') as [-> ->].
    by rewrite !(Zsum_fmap_Permutation _ _ _ Hds).
Qed.

(** C7. Every call of [analyzeDuplicates] returns a report, and two calls on
    the same manifest return reports with the same [Duplications] (each with
    its files, count and size) up to their order, the same sequence of
    [DuplicateSize] values position by position, and the same totals; a
    [Duplication] whose [DuplicateSize] no other one shares stands at the
    same position in both. *)
Theorem analyzeDuplicates_deterministic
    (sort_Slice : sort_function)
    (manifest : RemoteManifest) :
  sort_permutes sort_Slice →
  sort_orders sort_Slice →
  (∃ report, analyzeDuplicates sort_Slice manifest report) ∧
  ∀ report1 report2,
    analyzeDuplicates sort_Slice manifest report1 →
    analyzeDuplicates sort_Slice manifest report2 →
    Duplications report1 ≡ₚ Duplications report2 ∧
    DuplicateSize <$> Duplications report1
      = DuplicateSize <$> Duplications report2 ∧
    TotalDuplicateCount report1 = TotalDuplicateCount report2 ∧
    TotalDuplicateSize report1 = TotalDuplicateSize report2 ∧
    (∀ i d,
       Duplications report1 !! i = Some d →
       (∀ d', d' ∈ Duplications report1 →
              DuplicateSize d' = DuplicateSize d → d' = d) →
       Duplications report2 !! i = Some d).
Proof.
  intros Hperm Hord. split; [by apply analyzeDuplicates_returns|].
  intros report1 report2 Hrun1 Hrun2.
  assert (Duplications report1 ≡ₚ Duplications report2) as Hds.
  { by rewrite (report_Duplications _ Hperm _ _ Hrun1),
      (report_Duplications _ Hperm _ _ Hrun2). }
  assert (DuplicateSize <$> Duplications report1
          = DuplicateSize <$> Duplications report2) as Hsizes.
  { apply (StronglySorted_unique_strong Z.ge).
    - intros. lia.
    - by eapply report_sizes_sorted.
    - by eapply report_sizes_sorted.
    - by rewrite Hds. }
  split; [done|]. split; [done|].
  destruct (report_totals _ Hperm _ _ Hrun1) as [-> ->].
  destruct (report_totals _ Hperm _ _ Hrun2) as [-> ->].
  rewrite !(Zsum_fmap_Permutation _ _ _ Hds).
  split; [done|]. split; [done|].
  intros i d Hi Hunique.
  assert ((DuplicateSize <$> Duplications report2) !! i
          = Some (DuplicateSize d)) as Hi2.
  { by rewrite <- Hsizes, list_lookup_fmap, Hi. }
  rewrite list_lookup_fmap in Hi2.
  destruct (Duplications report2 !! i) as [d2|] eqn:Hd2; [|done].
  injection Hi2 as Hi2. f_equal. apply Hunique; [|done].
  rewrite Hds. by eapply list_elem_of_lookup_2.
Qed.

(** C10, amended. Every file of a [Duplication] has a size of at least 1000,
    so that for sizes that are [int64] values the conversion to [uint64]
    leaves each of them unchanged; the [DuplicateSize] is the sum of the
    sizes of the files after the first modulo 2^64, and is that sum itself
    whenever the sum is below 2^64. *)
Theorem analyzeDuplicates_sizes
    (sort_Slice : sort_function)
    (manifest : RemoteManifest) (report : DuplicateReport)
    (d : Duplication) :
  sort_permutes sort_Slice →
  (∀ hash files f,
     manifest !! hash = Some files → f ∈ files → in_int64 (Size f)) →
  analyzeDuplicates sort_Slice manifest report →
  d ∈ Duplications report →
  (∀ f, f ∈ Files d → 1000 ≤ Size f ∧ to_uint64 (Size f) = Size f) ∧
  DuplicateSize d = to_uint64 (Zsum (Size <$> tail (Files d))) ∧
  (Zsum (Size <$> tail (Files d)) < 2 ^ 64 →
   DuplicateSize d = Zsum (Size <$> tail (Files d))).
Proof.
  intros Hperm Hint Hrun Hd.
  apply (elem_of_report _ Hperm _ _ _ Hrun) in Hd
    as (hash & files & Hfiles & Hd).
  apply bucket_duplication_Some in Hd as [_ ->]. simpl.
  split; [|split; [done|]].
  - intros f Hf. pose proof (filterDuplicateFiles_size _ _ Hf) as Hsize.
    split; [done|]. apply to_uint64_small.
    assert (f ∈ files) as Hin.
    { rewrite filterDuplicateFiles_filter in Hf.
      by apply list_elem_of_filter in Hf as [_ ?]. }
    specialize (Hint _ _ _ Hfiles Hin). unfold in_int64 in Hint. lia.
  - intros Hsum. apply to_uint64_small.
    split; [apply tail_sizes_nonneg|done].
Qed.

(** ** The store *)

Lemma frame_refl h : frame h h.
Proof. by repeat split. Qed.

Lemma frame_dom h0 h a : frame h0 h → a ∈ dom (arrays h0) → a ∈ dom (arrays h).
Proof.
  intros [_ Harr] Ha. specialize (Harr a Ha).
  apply elem_of_dom in Ha. apply elem_of_dom. by rewrite Harr.
Qed.

Lemma frame_trans h0 h1 h2 : frame h0 h1 → frame h1 h2 → frame h0 h2.
Proof.
  intros H01 H12. split.
  - destruct H01 as [[? ?] _], H12 as [[? ?] _]. split; congruence.
  - intros a Ha. destruct H12 as [_ H12]. rewrite H12 by by eapply frame_dom.
    destruct H01 as [_ H01]. by apply H01.
Qed.

Lemma slice_ptrs_take s h ps a :
  slice_ptrs s h = Some ps → arrays h !! s_array s = Some a →
  ps = take (s_len s) (drop (s_off s) a) ∧ length ps = s_len s.
Proof.
  unfold slice_ptrs. intros Hps Ha. rewrite Ha in Hps.
  destruct (Nat.eqb_spec (s_len s) 0) as [->|].
  { by injection Hps as <-. }
  destruct (Nat.eqb_spec (length (take (s_len s) (drop (s_off s) a)))
              (s_len s)); [|done].
  by injection Hps as <-.
Qed.

Lemma slice_ptrs_length s h ps : slice_ptrs s h = Some ps → length ps = s_len s.
Proof.
  intros Hps. destruct (arrays h !! s_array s) as [a|] eqn:Ha.
  - by destruct (slice_ptrs_take _ _ _ _ Hps Ha).
  - unfold slice_ptrs in Hps. rewrite Ha in Hps.
    destruct (Nat.eqb_spec (s_len s) 0) as [->|]; [|done].
    by injection Hps as <-.
Qed.

Lemma slice_ptrs_index s h ps i :
  slice_ptrs s h = Some ps → (i < s_len s)%nat →
  ∃ p, ps !! i = Some p ∧ index s i h = Some (p, h).
Proof.
  intros Hps Hi. unfold index.
  destruct (Nat.ltb_spec i (s_len s)); [|lia].
  unfold slice_ptrs in Hps.
  destruct (Nat.eqb_spec (s_len s) 0); [lia|].
  destruct (arrays h !! s_array s) as [a|]; [|done].
  destruct (Nat.eqb_spec (length (take (s_len s) (drop (s_off s) a))) (s_len s))
    as [Hlen|]; [|done].
  injection Hps as <-.
  destruct (lookup_lt_is_Some_2 (take (s_len s) (drop (s_off s) a)) i)
    as [p Hp]; [lia|].
  exists p. split; [done|].
  rewrite lookup_take_lt, lookup_drop in Hp by done. by rewrite Hp.
Qed.

Lemma slice_ptrs_frame h0 h s ps :
  frame h0 h → slice_ptrs s h0 = Some ps → slice_ptrs s h = Some ps.
Proof.
  intros [_ Harr]. unfold slice_ptrs.
  destruct (s_len s =? 0)%nat; [done|].
  destruct (arrays h0 !! s_array s) as [a|] eqn:Ha; [|done].
  rewrite Harr, Ha; [done|]. apply elem_of_dom. by rewrite Ha.
Qed.

Lemma slice_view_frame h0 h s fs :
  frame h0 h → slice_view s h0 = Some fs → slice_view s h = Some fs.
Proof.
  intros Hframe. unfold slice_view.
  destruct (slice_ptrs s h0) as [ps|] eqn:Hps; [|done].
  rewrite (slice_ptrs_frame _ _ _ _ Hframe Hps).
  by destruct Hframe as [[-> _] _].
Qed.

Section StoreProofs.
Variable surplus : nat → nat → nat.

Lemma append_spec h0 h s p ps :
  frame h0 h → owned h0 h s → slice_ptrs s h = Some ps →
  ∃ s' h',
    append surplus s p h = Some (s', h') ∧
    frame h0 h' ∧ owned h0 h' s' ∧
    slice_ptrs s' h' = Some (ps ++ [p]) ∧
    s_len s' = S (s_len s).
Proof.
  intros Hframe Howned Hps. unfold append.
  destruct (Nat.ltb_spec (s_len s) (s_cap s)) as [Hlt|Hge].
  - destruct Howned as [[? ?]|(Hfresh & a & Ha & Hcap & Hlen)]; [lia|].
    rewrite Ha.
    destruct (Nat.ltb_spec (s_off s + s_len s) (length a)); [|lia].
    eexists _, _. split; [done|].
    destruct (slice_ptrs_take _ _ _ _ Hps Ha) as [Hps' Hpslen].
    split; [|split; [|split; [|done]]].
    + destruct Hframe as [[Hobj Hmap] Harr]. split; [done|].
      intros a' Ha'. simpl. rewrite lookup_insert_ne; [by apply Harr|].
      by intros <-.
    + right. simpl. split; [done|].
      eexists. rewrite lookup_insert_eq. split; [done|].
      rewrite length_insert. lia.
    + unfold slice_ptrs. simpl. rewrite lookup_insert_eq.
      rewrite drop_insert_ge by lia.
      replace (s_off s + s_len s - s_off s)%nat with (s_len s) by lia.
      assert (s_len s < length (drop (s_off s) a))%nat as Hl
        by (rewrite length_drop; lia).
      rewrite (take_S_r _ _ p) by (by apply list_lookup_insert_eq).
      rewrite take_insert_ge by done. rewrite <- Hps'.
      rewrite length_app, Hpslen. simpl.
      by rewrite Nat.add_1_r, Nat.eqb_refl.
  - rewrite Hps. eexists _, _. split; [done|].
    pose proof (slice_ptrs_length _ _ _ Hps) as Hpslen.
    pose proof (is_fresh (dom (arrays h))) as Hnew.
    split; [|split; [|split; [|done]]].
    + destruct Hframe as [[Hobj Hmap] Harr]. split; [done|].
      intros a' Ha'. simpl. rewrite lookup_insert_ne; [by apply Harr|].
      intros <-. apply Hnew. eapply frame_dom; [|done]. by split.
    + right. simpl. split.
      { intros Hin. apply Hnew. by eapply frame_dom. }
      eexists. rewrite lookup_insert_eq. split; [done|].
      rewrite length_app, length_cons, length_replicate, Hpslen. lia.
    + unfold slice_ptrs. simpl. rewrite lookup_insert_eq.
      rewrite drop_0, cons_middle, (assoc_L (++)), take_app_length'
        by (rewrite length_app, Hpslen; simpl; lia).
      rewrite length_app, Hpslen. simpl.
      by rewrite Nat.add_1_r, Nat.eqb_refl.
Qed.

Lemma bind_Some {A B} (c : M A) (k : A → M B) h a h' :
  c h = Some (a, h') → bind c k h = k a h'.
Proof. unfold bind. by intros ->. Qed.

Lemma for_index_S {St} (body : St → nat → M St) idx n s h :
  for_index body idx (S n) s h
  = match body s idx h with
    | Some (s', h') => for_index body (S idx) n s' h'
    | None => None
    end.
Proof. done. Qed.

Lemma ignoreFile_at_spec h p f :
  objects h !! p = Some f → ignoreFile_at p h = Some (ignoreFile f, h).
Proof. intros Hf. unfold ignoreFile_at, bind, load_Size. by rewrite Hf. Qed.

Lemma filter_loop_at h0 files ps fs :
  slice_ptrs files h0 = Some ps →
  mapM (λ p, objects h0 !! p) ps = Some fs →
  ∀ (k i : nat) filtered h acc,
    (i + k = s_len files)%nat →
    frame h0 h → owned h0 h filtered → slice_ptrs filtered h = Some acc →
    ∃ filtered' h',
      for_index
        (λ filteredFiles i,
           let! file := index files i in
           let! ignored := ignoreFile_at file in
           if negb ignored then append surplus filteredFiles file
           else ret filteredFiles)
        i k filtered h = Some (filtered', h') ∧
      frame h0 h' ∧ owned h0 h' filtered' ∧
      slice_ptrs filtered' h'
        = Some (acc ++ filter (λ p, kept h0 p = true) (drop i ps)).
Proof.
  intros Hps Hfs. apply mapM_Some_1 in Hfs.
  pose proof (slice_ptrs_length _ _ _ Hps) as Hlen.
  induction k as [|k IH]; intros i filtered h acc Hik Hframe Howned Hacc.
  - simpl. eexists _, _. split; [done|]. split; [done|]. split; [done|].
    rewrite drop_ge by lia. by rewrite filter_nil, app_nil_r.
  - rewrite for_index_S.
    destruct (slice_ptrs_index files h ps i) as (p & Hp & Hidx);
      [by eapply slice_ptrs_frame|lia|].
    destruct (Forall2_lookup_l _ _ _ _ _ Hfs Hp) as (f & _ & Hf).
    assert (objects h !! p = Some f) as Hf'
      by (destruct Hframe as [[-> _] _]; done).
    rewrite (bind_Some _ _ _ _ _ Hidx).
    rewrite (bind_Some _ _ _ _ _ (ignoreFile_at_spec _ _ _ Hf')).
    rewrite (drop_S _ _ _ Hp).
    destruct (ignoreFile f) eqn:Hign; simpl.
    + rewrite filter_cons_False by (unfold kept; rewrite Hf, Hign; done).
      apply IH; [lia|done..].
    + destruct (append_spec h0 h filtered p acc Hframe Howned Hacc)
        as (s' & h' & Happ & Hframe' & Howned' & Hacc' & _).
      rewrite Happ.
      rewrite filter_cons_True by (unfold kept; rewrite Hf, Hign; done).
      rewrite cons_middle, (assoc_L (++)).
      apply IH; [lia|done..].
Qed.

Lemma kept_view h ps fs :
  mapM (λ p, objects h !! p) ps = Some fs →
  mapM (λ p, objects h !! p) (filter (λ p, kept h p = true) ps)
  = Some (filter (λ f, ignoreFile f = false) fs).
Proof.
  intros Hfs. apply mapM_Some_1 in Hfs. apply mapM_Some_2.
  induction Hfs as [|p f ps fs Hf Hfs IH]; [constructor|].
  destruct (ignoreFile f) eqn:Hign.
  - rewrite filter_cons_False by (unfold kept; rewrite Hf, Hign; done).
    by rewrite filter_cons_False by congruence.
  - rewrite filter_cons_True by (unfold kept; rewrite Hf, Hign; done).
    rewrite filter_cons_True by done. by constructor.
Qed.

Lemma filterDuplicateFiles_at_spec h files fs :
  slice_view files h = Some fs →
  ∃ filtered h',
    filterDuplicateFiles_at surplus files h = Some (filtered, h') ∧
    frame h h' ∧ owned h h' filtered ∧
    slice_view filtered h' = Some (filterDuplicateFiles fs).
Proof.
  unfold slice_view. intros Hview.
  destruct (slice_ptrs files h) as [ps|] eqn:Hps; [|done].
  destruct (filter_loop_at h files ps fs Hps Hview (s_len files) 0
              nil_slice h [])
    as (filtered & h' & Hrun & Hframe & Howned & Hptrs);
    [done|apply frame_refl|by left|done|].
  exists filtered, h'. split; [done|]. split; [done|]. split; [done|].
  rewrite Hptrs, drop_0, app_nil_l, filterDuplicateFiles_filter.
  destruct Hframe as [[-> _] _]. by apply kept_view.
Qed.

Lemma slice_view_length s h fs :
  slice_view s h = Some fs → length fs = s_len s.
Proof.
  unfold slice_view. destruct (slice_ptrs s h) as [ps|] eqn:Hps; [|done].
  intros Hfs%mapM_Some_1%Forall2_length.
  by rewrite <- Hfs, (slice_ptrs_length _ _ _ Hps).
Qed.

Lemma count_loop_at h s fs :
  slice_view s h = Some fs →
  ∀ (k idx : nat) acc,
    (idx + k = s_len s)%nat →
    for_index
      (λ acc idx,
         let! f := index s idx in
         if (idx =? 0)%nat then ret acc
         else
           let! size := load_Size f in
           ret (int_add (fst acc) 1, uint64_add (snd acc) (to_uint64 size)))
      idx k acc h
    = Some (for_range count_body idx (drop idx fs) acc, h).
Proof.
  intros Hview. pose proof (slice_view_length _ _ _ Hview) as Hlen.
  unfold slice_view in Hview.
  destruct (slice_ptrs s h) as [ps|] eqn:Hps; [|done].
  apply mapM_Some_1 in Hview.
  induction k as [|k IH]; intros idx acc Hk.
  - simpl. by rewrite drop_ge by lia.
  - rewrite for_index_S.
    destruct (slice_ptrs_index s h ps idx Hps) as (p & Hp & Hidx); [lia|].
    destruct (Forall2_lookup_l _ _ _ _ _ Hview Hp) as (f & Hf & Hobj).
    rewrite (bind_Some _ _ _ _ _ Hidx), (drop_S _ _ _ Hf).
    cbn [for_range]. unfold count_body at 2.
    destruct (idx =? 0)%nat.
    + unfold ret. by apply IH; lia.
    + unfold bind, load_Size, ret. rewrite Hobj. by apply IH; lia.
Qed.

Lemma count_duplicates_at_spec h s fs :
  slice_view s h = Some fs →
  count_duplicates_at s h = Some (count_duplicates fs, h).
Proof.
  intros Hview. unfold count_duplicates_at.
  by rewrite (count_loop_at h s fs Hview (s_len s) 0).
Qed.

Lemma Duplication_view_frame h h' d v :
  frame h h' → Duplication_view h d = Some v → Duplication_view h' d = Some v.
Proof.
  intros Hframe. unfold Duplication_view.
  destruct (slice_view (Files_at d) h) as [fs|] eqn:Hfs; [|done].
  by rewrite (slice_view_frame _ _ _ _ Hframe Hfs).
Qed.

Lemma report_view_frame h h' report v :
  frame h h' → report_view h report = Some v → report_view h' report = Some v.
Proof.
  intros Hframe. unfold report_view.
  destruct (mapM (Duplication_view h) (Duplications_at report))
    as [ds|] eqn:Hds; [|done].
  assert (mapM (Duplication_view h') (Duplications_at report) = Some ds)
    as ->; [|done].
  apply mapM_Some. apply mapM_Some in Hds.
  eapply Forall2_impl; [done|]. intros d v'. by apply Duplication_view_frame.
Qed.

Lemma analyze_body_at_spec h report v hash files fs :
  report_view h report = Some v →
  slice_view files h = Some fs →
  ∃ report' h',
    analyze_body_at surplus report hash files h = Some (report', h') ∧
    frame h h' ∧
    report_view h' report' = Some (analyze_body v hash fs).
Proof.
  intros Hreport Hfiles. unfold analyze_body_at, analyze_body.
  rewrite (slice_view_length _ _ _ Hfiles).
  destruct (s_len files <=? 1)%nat.
  { exists report, h. by split; [|split; [apply frame_refl|]]. }
  destruct (filterDuplicateFiles_at_spec h files fs Hfiles)
    as (filtered & h' & Hrun & Hframe & _ & Hfiltered).
  rewrite (bind_Some _ _ _ _ _ Hrun).
  rewrite (slice_view_length _ _ _ Hfiltered).
  destruct (s_len filtered <=? 1)%nat.
  { exists report, h'. split; [done|]. split; [done|].
    by eapply report_view_frame. }
  rewrite (bind_Some _ _ _ _ _ (count_duplicates_at_spec _ _ _ Hfiltered)).
  set (counted := count_duplicates (filterDuplicateFiles fs)).
  eexists _, h'. split; [done|]. split; [done|].
  apply (report_view_frame _ _ _ _ Hframe) in Hreport.
  unfold report_view in *. cbn [Duplications_at].
  destruct (mapM (Duplication_view h') (Duplications_at report))
    as [ds|] eqn:Hds; [|done].
  injection Hreport as <-.
  rewrite (mapM_Some_2 _ _
             (ds ++ [ {| Duplication_ContentHash := hash;
                         Files := filterDuplicateFiles fs;
                         DuplicateCount := counted.1;
                         DuplicateSize := counted.2 |} ])); [done|].
  apply Forall2_app; [by apply mapM_Some|].
  constructor; [|constructor].
  unfold Duplication_view. simpl. by rewrite Hfiltered.
Qed.

Lemma analyze_loop_at_spec entries views :
  ∀ h report v,
    Forall2 (λ e ev, e.1 = ev.1 ∧ slice_view e.2 h = Some ev.2)
      entries views →
    report_view h report = Some v →
    ∃ report' h',
      analyze_loop_at surplus entries report h = Some (report', h') ∧
      frame h h' ∧
      report_view h' report'
        = Some (fold_left (λ r e, analyze_body r e.1 e.2) views v).
Proof.
  revert views.
  induction entries as [|[hash files] entries IH];
    intros views h report v Hviews Hreport.
  - apply Forall2_nil_inv_l in Hviews as ->.
    exists report, h. by split; [|split; [apply frame_refl|]].
  - apply Forall2_cons_inv_l in Hviews
      as ([hash' fs] & views' & [Hhash Hfs] & Hviews & ->).
    simpl in Hhash, Hfs. subst hash'. cbn [analyze_loop_at fold_left fst snd].
    destruct (analyze_body_at_spec h report v hash files fs Hreport Hfs)
      as (report1 & h1 & Hrun1 & Hframe1 & Hreport1).
    rewrite (bind_Some _ _ _ _ _ Hrun1).
    destruct (IH views' h1 report1 (analyze_body v hash fs))
      as (report2 & h2 & Hrun2 & Hframe2 & Hreport2); [|done|].
    { eapply Forall2_impl; [done|]. intros e ev [? ?]. split; [done|].
      by eapply slice_view_frame. }
    exists report2, h2. split; [done|]. split; [|done].
    by eapply frame_trans.
Qed.
End StoreProofs.

Lemma entries_views (entries : list (string * slice)) h :
  Forall (λ e, is_Some (slice_view e.2 h)) entries →
  ∃ views,
    Forall2 (λ e ev, e.1 = ev.1 ∧ slice_view e.2 h = Some ev.2) entries views.
Proof.
  induction 1 as [|[hash files] entries [fs Hfs] _ [views IH]].
  - exists []. constructor.
  - exists ((hash, fs) :: views). by constructor.
Qed.

Lemma manifest_view_frame manifest h h' :
  manifest_ok manifest h → frame h h' →
  manifest_view manifest h' = manifest_view manifest h.
Proof.
  intros Hok Hframe. unfold manifest_view.
  destruct Hframe as [[Hobj Hmaps] Harr]. rewrite Hmaps.
  destruct (maps h !! manifest) as [m|] eqn:Hm; [|done]. simpl. f_equal.
  apply map_fmap_ext. intros hash files Hfiles.
  destruct (Hok hash files) as [fs Hfs].
  { unfold map_at. by rewrite Hm. }
  rewrite Hfs. by eapply slice_view_frame.
Qed.

(** C8. A call of [analyzeDuplicates] on a manifest whose buckets can be read
    returns without a panic and leaves the manifest as it was: the map, the
    backing arrays and the records of the store before the call are
    unchanged after it, so that the manifest holds the same keys with the
    same records in the same order. *)
Theorem analyzeDuplicates_keeps_manifest
    (surplus : nat → nat → nat)
    (sort_Slice : sort_function)
    (manifest : loc) (h : heap)
    (outcome : option (DuplicateReport_at * heap)) :
  manifest_ok manifest h →
  analyzeDuplicates_at surplus sort_Slice manifest h outcome →
  ∃ report h',
    outcome = Some (report, h') ∧
    objects h' = objects h ∧
    maps h' = maps h ∧
    (∀ a, a ∈ dom (arrays h) → arrays h' !! a = arrays h !! a) ∧
    manifest_view manifest h' = manifest_view manifest h.
Proof.
  intros Hok [entries Hentries].
  destruct (entries_views entries h) as [views Hviews].
  { apply Forall_forall. intros [hash files] Hin. simpl.
    rewrite Hentries in Hin. apply elem_of_map_to_list in Hin. by eapply Hok. }
  destruct (analyze_loop_at_spec surplus entries views h empty_report_at
              empty_report Hviews eq_refl)
    as (report & h' & Hrun & Hframe & _).
  unfold analyzeDuplicates_range_at. rewrite (bind_Some _ _ _ _ _ Hrun).
  eexists _, h'. split; [done|].
  pose proof (manifest_view_frame manifest h h' Hok Hframe).
  by destruct Hframe as [[? ?] ?].
Qed.

Lemma Duplication_view_size h d v :
  Duplication_view h d = Some v → DuplicateSize v = DuplicateSize_at d.
Proof.
  unfold Duplication_view. destruct (slice_view (Files_at d) h); [|done].
  by intros [= <-].
Qed.

(** The two embeddings agree: [analyzeDuplicates] on the store returns a
    report that reads as the report of [analyzeDuplicates] on the values
    that the entries of the manifest read as. *)
Lemma analyzeDuplicates_at_refines
    (surplus : nat → nat → nat) (sort_Slice : sort_function)
    (entries : list (string * slice))
    (views : list (string * list File)) (h : heap) :
  sort_parametric sort_Slice →
  Forall2 (λ e ev, e.1 = ev.1 ∧ slice_view e.2 h = Some ev.2) entries views →
  ∃ report h',
    analyzeDuplicates_range_at surplus sort_Slice entries h
      = Some (report, h') ∧
    report_view h' report = Some (analyzeDuplicates_range sort_Slice views).
Proof.
  intros Hsort Hviews.
  destruct (analyze_loop_at_spec surplus entries views h empty_report_at
              empty_report Hviews eq_refl)
    as (report & h' & Hrun & _ & Hview).
  unfold analyzeDuplicates_range_at. rewrite (bind_Some _ _ _ _ _ Hrun).
  eexists _, h'. split; [done|].
  fold (analyze_loop views) in Hview.
  unfold report_view in *. cbn [Duplications_at].
  destruct (mapM (Duplication_view h') (Duplications_at report))
    as [ds|] eqn:Hds; [|done].
  injection Hview as Hview. apply mapM_Some in Hds.
  rewrite (mapM_Some_2 _ _ (sort_Slice Duplication size_less ds)).
  - unfold analyzeDuplicates_range. by rewrite <- Hview.
  - apply Hsort; [|done]. intros d v d' v' Hd Hd'.
    unfold size_less_at, size_less.
    by rewrite (Duplication_view_size _ _ _ Hd),
      (Duplication_view_size _ _ _ Hd').
Qed.

(** [append] writes into the array of its argument when there is room: a
    slice with spare capacity over an array of the manifest would change
    that array. *)
Example append_in_place :
  append surplus_double (mkSlice 10%nat 0 1 3) 3%nat store_C
  = Some (mkSlice 10%nat 0 2 3,
          {| objects := objects store_C;
             arrays := {[ 10%nat := [1; 3; 3]%nat ]};
             maps := maps store_C |}).
Proof. reflexivity. Qed.

(** ** The filter policy *)

(** C4. [ignoreFile] rejects exactly the files of size below 1000: a file of
    size 999 is rejected, a file of size 1000 is not. The answer depends on
    the size of the one record alone, and the call through a pointer leaves
    the store as it is. *)
Theorem ignoreFile_threshold (file : File) :
  (ignoreFile file = true ↔ Size file < 1000) ∧
  (∀ path hash, ignoreFile (mkFile path 999 hash) = true) ∧
  (∀ path hash, ignoreFile (mkFile path 1000 hash) = false) ∧
  (∀ file', Size file' = Size file → ignoreFile file' = ignoreFile file) ∧
  (∀ h p, objects h !! p = Some file →
          ignoreFile_at p h = Some (ignoreFile file, h)).
Proof.
  split; [apply ignoreFile_spec|].
  split; [done|]. split; [done|]. split.
  - unfold ignoreFile. by intros file' ->.
  - intros h p Hp. by apply ignoreFile_at_spec.
Qed.

(** ** Failure of the scan *)

(** C6. When the listing fails, [getGoogleDriveManifest] returns the error
    with an empty manifest, whatever files were listed, and [main] ends in
    [panic] with that error and in no other way; [main] prints a report only
    when the scan returned no error, and the report is then the analysis of
    the manifest of the scan. *)
Theorem scan_failure_is_fatal
    (sort_Slice : sort_function)
    (files : list File) (e : error) :
  getGoogleDriveManifest (files, Some e) = (∅, Some e) ∧
  main sort_Slice (files, Some e) (Panic e) ∧
  (∀ o, main sort_Slice (files, Some e) o → o = Panic e) ∧
  (∀ listing_Files report,
     main sort_Slice listing_Files (Printed report) →
     listing_Files.2 = None ∧
     analyzeDuplicates sort_Slice
       (getGoogleDriveManifest listing_Files).1 report) ∧
  (∀ files', ∃ report, main sort_Slice (files', None) (Printed report)).
Proof.
  split; [done|]. split; [by constructor|]. split; [|split].
  - intros o Ho. inversion Ho as [e' He'|report Hnone _]; simpl in *.
    + by injection He' as <-.
    + done.
  - intros [files' [e'|]] report Hmain;
      inversion Hmain as [|report' Hnone Hrun]; simpl in *; [done|].
    by split.
  - intros files'.
    destruct (analyzeDuplicates_returns sort_Slice
                (getGoogleDriveManifest (files', None)).1) as [report Hrun].
    exists report. by constructor.
Qed.

(** ** The scenarios of the specification *)

(** A single small file: no group. *)
Example scenario_A_report :
  analyzeDuplicates_range insertionSort
    (map_to_list ({[ "h1" := [mkFile "a" 500 "h1"] ]} : RemoteManifest))
  = empty_report.
Proof. reflexivity. Qed.

(** One group, for "h1", with one duplicate of 2000 bytes. *)
Example scenario_B_report :
  analyzeDuplicates_range insertionSort (map_to_list scenario_B)
  = {| Duplications :=
         [ {| Duplication_ContentHash := "h1";
              Files := [mkFile "a" 2000 "h1"; mkFile "b" 2000 "h1"];
              DuplicateCount := 1;
              DuplicateSize := 2000 |} ];
       TotalDuplicateCount := 1;
       TotalDuplicateSize := 2000 |}.
Proof. reflexivity. Qed.

(** The file of 100 bytes is filtered out; the files are "b" and "c". *)
Example scenario_C_report :
  analyzeDuplicates_range insertionSort (map_to_list scenario_C)
  = {| Duplications :=
         [ {| Duplication_ContentHash := "h1";
              Files := [mkFile "b" 2000 "h1"; mkFile "c" 2000 "h1"];
              DuplicateCount := 1;
              DuplicateSize := 2000 |} ];
       TotalDuplicateCount := 1;
       TotalDuplicateSize := 2000 |}.
Proof. reflexivity. Qed.

(** The group of 5000 bytes comes first. *)
Example scenario_D_report :
  DuplicateSize <$>
    Duplications
      (analyzeDuplicates_range insertionSort (map_to_list scenario_D))
  = [5000; 3000].
Proof. reflexivity. Qed.

(** The scan puts the files of one hash into one bucket, in listing order. *)
Example getGoogleDriveManifest_groups :
  getGoogleDriveManifest
    ([mkFile "a" 2000 "h1"; mkFile "c" 500 "h2"; mkFile "b" 2000 "h1"], None)
  = (scenario_B, None).
Proof. vm_compute. reflexivity. Qed.

(** On the store of [scenario_C] the call allocates the arrays 11 and 12 for
    the filtered files and leaves the array 10 of the manifest as it is. *)
Example store_C_run :
  (λ r, (Files_at <$> Duplications_at r.1, arrays r.2)) <$>
    analyzeDuplicates_range_at surplus_double insertionSort
      (map_to_list (map_at 20%nat store_C)) store_C
  = Some ([mkSlice 12%nat 0 2 3],
          {[ 10%nat := [1; 2; 3]%nat;
             11%nat := [2]%nat;
             12%nat := [2; 3; 0]%nat ]}).
Proof. vm_compute. reflexivity. Qed.

(** ** Witnesses and counterexamples *)

Lemma analyzeDuplicates_bucket_witness :
  filterDuplicateFiles scenario_C_files
    = filter (λ f, ignoreFile f = false) scenario_C_files ∧
  filterDuplicateFiles scenario_C_files `sublist_of` scenario_C_files ∧
  ∃ d,
    d ∈ Duplications
          (analyzeDuplicates_range insertionSort (map_to_list scenario_C)) ∧
    (∀ d', d' ∈ Duplications
                  (analyzeDuplicates_range insertionSort
                     (map_to_list scenario_C)) →
           Duplication_ContentHash d' = "h1" → d' = d) ∧
    Duplication_ContentHash d = "h1" ∧
    Files d = filterDuplicateFiles scenario_C_files ∧
    DuplicateCount d = Z.of_nat (length (Files d)) - 1 ∧
    DuplicateSize d = to_uint64 (Zsum (Size <$> tail (Files d))) ∧
    (Zsum (Size <$> tail (Files d)) < 2 ^ 64 →
     DuplicateSize d = Zsum (Size <$> tail (Files d))).
Proof.
  apply (analyzeDuplicates_bucket insertionSort scenario_C
           (analyzeDuplicates_range insertionSort (map_to_list scenario_C))
           "h1" scenario_C_files insertionSort_permutes).
  - by apply analyzeDuplicates_run.
  - reflexivity.
  - vm_compute. lia.
  - vm_compute. discriminate.
Defined.

(** Four files of 2^63 - 1 bytes in one bucket: the sizes of the last three
    add up to more than 2^64, and the [DuplicateSize] is not their sum. *)
Lemma analyzeDuplicates_bucket_size_wraps :
  ∃ report d,
    analyzeDuplicates insertionSort huge_manifest report ∧
    huge_manifest !! "h1" = Some huge_files ∧
    (2 ≤ length (filterDuplicateFiles huge_files))%nat ∧
    Duplications report = [d] ∧
    Duplication_ContentHash d = "h1" ∧
    Files d = filterDuplicateFiles huge_files ∧
    DuplicateSize d = 2 ^ 63 - 3 ∧
    Zsum (Size <$> tail (Files d)) = 3 * (2 ^ 63 - 1) ∧
    DuplicateSize d ≠ Zsum (Size <$> tail (Files d)).
Proof.
  exists (analyzeDuplicates_range insertionSort (map_to_list huge_manifest)).
  eexists. split; [by apply analyzeDuplicates_run|].
  split; [reflexivity|]. split; [vm_compute; lia|].
  split; [vm_compute; reflexivity|].
  repeat split; vm_compute; discriminate.
Qed.

Lemma analyzeDuplicates_totals_witness :
  let report :=
    analyzeDuplicates_range insertionSort (map_to_list scenario_B) in
  TotalDuplicateCount report
    = to_int (Zsum (DuplicateCount <$> Duplications report)) ∧
  TotalDuplicateSize report
    = to_uint64 (Zsum (DuplicateSize <$> Duplications report)) ∧
  (manifest_records scenario_B ≤ max_int →
   TotalDuplicateCount report = Zsum (DuplicateCount <$> Duplications report)) ∧
  (Zsum (DuplicateSize <$> Duplications report) < 2 ^ 64 →
   TotalDuplicateSize report = Zsum (DuplicateSize <$> Duplications report)).
Proof.
  apply (analyzeDuplicates_totals insertionSort scenario_B _
           insertionSort_permutes).
  by apply analyzeDuplicates_run.
Defined.

(** Three files of 2^63 - 1 bytes in one bucket and two files of 1000 bytes
    in another: the two [DuplicateSize] values add up to more than 2^64, and
    [TotalDuplicateSize] is not their sum. *)
Lemma analyzeDuplicates_total_size_wraps :
  ∃ report,
    analyzeDuplicates insertionSort huge_and_small report ∧
    DuplicateSize <$> Duplications report = [2 ^ 64 - 2; 1000] ∧
    TotalDuplicateSize report = 998 ∧
    TotalDuplicateSize report ≠ Zsum (DuplicateSize <$> Duplications report).
Proof.
  exists (analyzeDuplicates_range insertionSort (map_to_list huge_and_small)).
  split; [by apply analyzeDuplicates_run|].
  split; [reflexivity|]. split; [reflexivity|].
  vm_compute. discriminate.
Qed.

Lemma analyzeDuplicates_sorted_witness :
  let report :=
    analyzeDuplicates_range insertionSort (map_to_list scenario_D) in
  ∃ d1 d2,
    Duplications report !! 0%nat = Some d1 ∧
    Duplications report !! 1%nat = Some d2 ∧
    DuplicateSize d1 = 5000 ∧ DuplicateSize d2 = 3000 ∧
    DuplicateSize d2 ≤ DuplicateSize d1.
Proof.
  eexists _, _.
  split; [vm_compute; reflexivity|]. split; [vm_compute; reflexivity|].
  split; [reflexivity|]. split; [reflexivity|].
  apply (analyzeDuplicates_sorted insertionSort scenario_D
           (analyzeDuplicates_range insertionSort (map_to_list scenario_D))
           0%nat _ _ insertionSort_orders).
  - by apply analyzeDuplicates_run.
  - vm_compute. reflexivity.
  - vm_compute. reflexivity.
Defined.

Lemma analyzeDuplicates_dropped_witness :
  let report :=
    analyzeDuplicates_range insertionSort (map_to_list scenario_B) in
  (∀ d, d ∈ Duplications report → Duplication_ContentHash d ≠ "h2") ∧
  (∀ report',
     analyzeDuplicates insertionSort (delete "h2" scenario_B) report' →
     Duplications report' ≡ₚ Duplications report ∧
     TotalDuplicateCount report' = TotalDuplicateCount report ∧
     TotalDuplicateSize report' = TotalDuplicateSize report).
Proof.
  apply (analyzeDuplicates_dropped insertionSort scenario_B _
           "h2" [mkFile "c" 500 "h2"] insertionSort_permutes).
  - by apply analyzeDuplicates_run.
  - reflexivity.
  - vm_compute. lia.
Defined.

Lemma analyzeDuplicates_deterministic_witness :
  (∃ report, analyzeDuplicates insertionSort scenario_D report) ∧
  ∀ report1 report2,
    analyzeDuplicates insertionSort scenario_D report1 →
    analyzeDuplicates insertionSort scenario_D report2 →
    Duplications report1 ≡ₚ Duplications report2 ∧
    DuplicateSize <$> Duplications report1
      = DuplicateSize <$> Duplications report2 ∧
    TotalDuplicateCount report1 = TotalDuplicateCount report2 ∧
    TotalDuplicateSize report1 = TotalDuplicateSize report2 ∧
    (∀ i d,
       Duplications report1 !! i = Some d →
       (∀ d', d' ∈ Duplications report1 →
              DuplicateSize d' = DuplicateSize d → d' = d) →
       Duplications report2 !! i = Some d).
Proof.
  exact (analyzeDuplicates_deterministic insertionSort scenario_D
           insertionSort_permutes insertionSort_orders).
Defined.

Lemma analyzeDuplicates_keeps_manifest_witness :
  ∃ report h',
    analyzeDuplicates_range_at surplus_double insertionSort
      (map_to_list (map_at 20%nat store_C)) store_C = Some (report, h') ∧
    objects h' = objects store_C ∧
    maps h' = maps store_C ∧
    (∀ a, a ∈ dom (arrays store_C) → arrays h' !! a = arrays store_C !! a) ∧
    manifest_view 20%nat h' = manifest_view 20%nat store_C.
Proof.
  apply (analyzeDuplicates_keeps_manifest surplus_double insertionSort
           20%nat store_C).
  - intros hash files Hfiles.
    change (map_at 20%nat store_C)
      with ({[ "h1" := mkSlice 10%nat 0 3 3 ]} : gmap string slice) in Hfiles.
    apply lookup_singleton_Some in Hfiles as [_ <-].
    vm_compute. eauto.
  - by apply analyzeDuplicates_at_run.
Defined.

Lemma analyzeDuplicates_sizes_witness :
  let d := {| Duplication_ContentHash := "h1";
              Files := [mkFile "b" 2000 "h1"; mkFile "c" 2000 "h1"];
              DuplicateCount := 1;
              DuplicateSize := 2000 |} in
  (∀ f, f ∈ Files d → 1000 ≤ Size f ∧ to_uint64 (Size f) = Size f) ∧
  DuplicateSize d = to_uint64 (Zsum (Size <$> tail (Files d))) ∧
  (Zsum (Size <$> tail (Files d)) < 2 ^ 64 →
   DuplicateSize d = Zsum (Size <$> tail (Files d))).
Proof.
  apply (analyzeDuplicates_sizes insertionSort scenario_C
           (analyzeDuplicates_range insertionSort (map_to_list scenario_C))
           _ insertionSort_permutes).
  - intros hash files f Hfiles Hf. unfold scenario_C in Hfiles.
    apply lookup_singleton_Some in Hfiles as [_ <-].
    unfold scenario_C_files in Hf.
    repeat (apply elem_of_cons in Hf as [->|Hf]; [vm_compute; by split|]).
    by apply elem_of_nil in Hf.
  - by apply analyzeDuplicates_run.
  - vm_compute. apply list_elem_of_here.
Defined.

(** A record of negative size and four files of 2^63 - 1 bytes in one
    bucket: all sizes are [int64] values, every file of the [Duplication]
    has at least 1000 bytes, and still the [DuplicateSize] is not the sum of
    the sizes after the first. *)
Lemma analyzeDuplicates_size_not_exact :
  ∃ report d,
    analyzeDuplicates insertionSort negative_and_huge report ∧
    (∀ hash files f,
       negative_and_huge !! hash = Some files → f ∈ files →
       in_int64 (Size f)) ∧
    Duplications report = [d] ∧
    Files d = huge_files ∧
    Forall (λ f, 1000 ≤ Size f) (Files d) ∧
    DuplicateSize d = 2 ^ 63 - 3 ∧
    Zsum (Size <$> tail (Files d)) = 3 * (2 ^ 63 - 1) ∧
    DuplicateSize d ≠ Zsum (Size <$> tail (Files d)).
Proof.
  exists (analyzeDuplicates_range insertionSort
            (map_to_list negative_and_huge)).
  eexists. split; [by apply analyzeDuplicates_run|]. split.
  { intros hash files f Hfiles Hf. unfold negative_and_huge in Hfiles.
    apply lookup_singleton_Some in Hfiles as [_ <-].
    unfold huge_files in Hf.
    repeat (apply elem_of_cons in Hf as [->|Hf]; [vm_compute; by split|]).
    by apply elem_of_nil in Hf. }
  split; [vm_compute; reflexivity|]. split; [reflexivity|].
  split; [repeat constructor; vm_compute; discriminate|].
  split; [reflexivity|]. split; [reflexivity|].
  vm_compute. discriminate.
Qed.

(** * Further properties of the code *)

(** ** The scan *)

Lemma manifest_add_lookup (manifest : RemoteManifest) file hash :
  manifest_add manifest file !! hash
  = if decide (ContentHash file = hash)
    then Some (default [] (manifest !! hash) ++ [file])
    else manifest !! hash.
Proof.
  unfold manifest_add. case_decide as Hh.
  - subst hash. by rewrite lookup_insert_eq.
  - by rewrite lookup_insert_ne.
Qed.

Lemma manifest_loop_lookup files (manifest : RemoteManifest) idx hash :
  for_range (λ manifest (_ : nat) file, manifest_add manifest file)
    idx files manifest !! hash
  = match filter (λ f, ContentHash f = hash) files with
    | [] => manifest !! hash
    | new => Some (default [] (manifest !! hash) ++ new)
    end.
Proof.
  revert manifest idx.
  induction files as [|f files IH]; intros manifest idx; [done|].
  cbn [for_range]. rewrite IH, manifest_add_lookup.
  destruct (decide (ContentHash f = hash)) as [Hf|Hf].
  - rewrite filter_cons_True by done. simpl.
    destruct (filter (λ f0, ContentHash f0 = hash) files); simpl.
    + done.
    + by rewrite <- app_assoc.
  - by rewrite filter_cons_False by done.
Qed.

Lemma scan_lookup files hash :
  (getGoogleDriveManifest (files, None)).1 !! hash
  = match filter (λ f, ContentHash f = hash) files with
    | [] => None
    | bucket => Some bucket
    end.
Proof.
  simpl. rewrite manifest_loop_lookup, lookup_empty. simpl.
  by destruct (filter _ files).
Qed.

Lemma manifest_add_records (manifest : RemoteManifest) file :
  manifest_records (manifest_add manifest file)
  = manifest_records manifest + 1.
Proof.
  unfold manifest_records, manifest_add.
  destruct (manifest !! ContentHash file) as [old|] eqn:Hold; simpl.
  - rewrite <- (insert_delete_eq manifest).
    rewrite (Zsum_fmap_Permutation _ _ _
               (map_to_list_insert _ _ _ (lookup_delete_eq _ _))).
    rewrite <- (Zsum_fmap_Permutation _ _ _
                  (map_to_list_delete _ _ _ Hold)).
    rewrite !fmap_cons, !Zsum_cons. simpl. rewrite length_app. simpl. lia.
  - rewrite (Zsum_fmap_Permutation _ _ _ (map_to_list_insert _ _ _ Hold)).
    rewrite fmap_cons, Zsum_cons. simpl. lia.
Qed.

Lemma manifest_loop_records files (manifest : RemoteManifest) idx :
  manifest_records
    (for_range (λ manifest (_ : nat) file, manifest_add manifest file)
       idx files manifest)
  = manifest_records manifest + Z.of_nat (length files).
Proof.
  revert manifest idx.
  induction files as [|f files IH]; intros manifest idx; simpl; [lia|].
  rewrite IH, manifest_add_records. lia.
Qed.

(** X1. After a listing without error, the bucket of a hash holds exactly the
    listed files with that hash, in the order of the listing; a hash that no
    listed file carries has no bucket, so that no bucket is empty. *)
Theorem getGoogleDriveManifest_buckets (files : list File) (hash : string) :
  (getGoogleDriveManifest (files, None)).1 !! hash
  = match filter (λ f, ContentHash f = hash) files with
    | [] => None
    | bucket => Some bucket
    end.
Proof. apply scan_lookup. Qed.

(** X2. The manifest of a listing without error holds as many records as
    the listing has files: the scan neither drops nor repeats a file. *)
Theorem getGoogleDriveManifest_records (files : list File) :
  manifest_records (getGoogleDriveManifest (files, None)).1
  = Z.of_nat (length files).
Proof.
  simpl. rewrite manifest_loop_records.
  unfold manifest_records. by rewrite map_to_list_empty.
Qed.

(** ** The groups of a report *)

Lemma bucket_hashes_sublist (entries : list (string * list File)) :
  Duplication_ContentHash <$> omap (uncurry bucket_duplication) entries
    `sublist_of` entries.*1.
Proof.
  induction entries as [|[hash files] entries IH]; [done|].
  rewrite omap_bucket_cons, fmap_cons. simpl.
  destruct (bucket_duplication hash files) as [d|] eqn:Hd.
  - apply bucket_duplication_Some in Hd as [_ ->]. simpl.
    by apply sublist_skip.
  - by apply sublist_cons.
Qed.

Lemma report_hashes_NoDup
    (sort_Slice : sort_function)
    (manifest : RemoteManifest) (report : DuplicateReport) :
  sort_permutes sort_Slice →
  analyzeDuplicates sort_Slice manifest report →
  NoDup (Duplication_ContentHash <$> Duplications report).
Proof.
  intros Hperm Hrun.
  rewrite (report_Duplications _ Hperm _ _ Hrun).
  eapply sublist_NoDup; [|apply bucket_hashes_sublist].
  apply NoDup_fst_map_to_list.
Qed.

(** X3. The groups of a report have pairwise distinct hashes: a hash stands
    for at most one group. *)
Theorem analyzeDuplicates_distinct_hashes
    (sort_Slice : sort_function)
    (manifest : RemoteManifest) (report : DuplicateReport) :
  sort_permutes sort_Slice →
  analyzeDuplicates sort_Slice manifest report →
  NoDup (Duplication_ContentHash <$> Duplications report).
Proof. apply report_hashes_NoDup. Qed.

(** X4. Every group of a report comes from the bucket of its hash: its files
    are the filtered files of that bucket, at least two of them and no more
    than the bucket has, and its count is at least 1 and below the length
    of the bucket. *)
Theorem analyzeDuplicates_group_origin
    (sort_Slice : sort_function)
    (manifest : RemoteManifest) (report : DuplicateReport)
    (d : Duplication) :
  sort_permutes sort_Slice →
  analyzeDuplicates sort_Slice manifest report →
  d ∈ Duplications report →
  ∃ files,
    manifest !! Duplication_ContentHash d = Some files ∧
    Files d = filterDuplicateFiles files ∧
    (2 ≤ length (Files d) ≤ length files)%nat ∧
    DuplicateCount d = to_int (Z.of_nat (length (Files d)) - 1) ∧
    (Z.of_nat (length files) ≤ max_int →
     1 ≤ DuplicateCount d < Z.of_nat (length files)).
Proof.
  intros Hperm Hrun Hd.
  apply (elem_of_report _ Hperm _ _ _ Hrun) in Hd
    as (hash & files & Hfiles & Hd).
  apply bucket_duplication_Some in Hd as [Hlen ->]. simpl.
  pose proof (filterDuplicateFiles_length files).
  exists files. split; [done|]. split; [done|]. split; [lia|].
  split; [done|]. intros Hint.
  rewrite to_int_small; unfold max_int in *; lia.
Qed.

(** X5. A report has no group exactly when no bucket of the manifest keeps
    two files after filtering, and both totals are then 0. *)
Theorem analyzeDuplicates_empty
    (sort_Slice : sort_function)
    (manifest : RemoteManifest) (report : DuplicateReport) :
  sort_permutes sort_Slice →
  analyzeDuplicates sort_Slice manifest report →
  (Duplications report = [] ↔
   ∀ hash files,
     manifest !! hash = Some files →
     (length (filterDuplicateFiles files) < 2)%nat) ∧
  (Duplications report = [] →
   TotalDuplicateCount report = 0 ∧ TotalDuplicateSize report = 0).
Proof.
  intros Hperm Hrun. split; [split|].
  - intros Hnil hash files Hfiles.
    apply (bucket_duplication_None hash).
    destruct (bucket_duplication hash files) as [d|] eqn:Hd; [|done].
    assert (d ∈ Duplications report) as Hin
      by (apply (elem_of_report _ Hperm _ _ _ Hrun); eauto).
    rewrite Hnil in Hin. by apply elem_of_nil in Hin.
  - intros Hnone. apply elem_of_nil_inv. intros d Hd.
    apply (elem_of_report _ Hperm _ _ _ Hrun) in Hd
      as (hash & files & Hfiles & Hd).
    apply bucket_duplication_Some in Hd as [Hlen _].
    specialize (Hnone _ _ Hfiles). lia.
  - intros Hnil. destruct (report_totals _ Hperm _ _ Hrun) as [-> ->].
    by rewrite Hnil.
Qed.

(** X6. Filtering a filtered sequence changes nothing, and filtering a
    concatenation gives the concatenation of the filtered parts. *)
Theorem filterDuplicateFiles_idempotent (files files' : list File) :
  filterDuplicateFiles (filterDuplicateFiles files)
    = filterDuplicateFiles files ∧
  filterDuplicateFiles (files ++ files')
    = filterDuplicateFiles files ++ filterDuplicateFiles files'.
Proof.
  rewrite !filterDuplicateFiles_filter. split.
  - induction files as [|f files IH]; [done|].
    destruct (decide (ignoreFile f = false)) as [Hf|Hf].
    + rewrite filter_cons_True by done. rewrite filter_cons_True by done.
      by rewrite IH.
    + by rewrite filter_cons_False by done.
  - apply filter_app.
Qed.

(** ** The scan and the analysis together *)

Lemma scan_report_elem (sort_Slice : sort_function) files report d :
  sort_permutes sort_Slice →
  analyzeDuplicates sort_Slice (getGoogleDriveManifest (files, None)).1 report →
  d ∈ Duplications report ↔
  ∃ hash, (2 ≤ length (listed_files files hash))%nat ∧
          d = listed_group files hash.
Proof.
  intros Hperm Hrun. rewrite (elem_of_report _ Hperm _ _ _ Hrun).
  unfold listed_group, listed_files. split.
  - intros (hash & bucket & Hbucket & Hd). exists hash.
    rewrite scan_lookup in Hbucket.
    destruct (filter (λ f, ContentHash f = hash) files) eqn:Hfilter; [done|].
    injection Hbucket as <-. by apply bucket_duplication_Some in Hd.
  - intros (hash & Hlen & ->).
    exists hash, (filter (λ f, ContentHash f = hash) files).
    split; [|by apply bucket_duplication_Some].
    rewrite scan_lookup.
    destruct (filter (λ f, ContentHash f = hash) files); [|done].
    simpl in Hlen. lia.
Qed.

Lemma main_Printed_inv (sort_Slice : sort_function) listing_Files report :
  main sort_Slice listing_Files (Printed report) →
  listing_Files.2 = None ∧
  analyzeDuplicates sort_Slice (getGoogleDriveManifest listing_Files).1 report.
Proof.
  destruct listing_Files as [files [e|]];
    inversion 1 as [|report' Hnone Hrun]; simpl in *; [done|].
  by split.
Qed.

Lemma listed_files_elem files hash f :
  f ∈ listed_files files hash ↔
  f ∈ files ∧ ContentHash f = hash ∧ 1000 ≤ Size f.
Proof.
  unfold listed_files.
  rewrite filterDuplicateFiles_filter, !list_elem_of_filter.
  rewrite ignoreFile_false. tauto.
Qed.

Lemma listed_files_Permutation files1 files2 hash :
  files1 ≡ₚ files2 → listed_files files1 hash ≡ₚ listed_files files2 hash.
Proof.
  intros Hfiles. unfold listed_files.
  rewrite !filterDuplicateFiles_filter. by rewrite Hfiles.
Qed.

(** X7. The report that [main] prints for a listing without error has one
    group for each hash that at least two listed files of at least 1000
    bytes carry, and no other group; the files of a group are those listed
    files, in the order of the listing, and each of them carries the hash of
    the group. *)
Theorem main_report_groups
    (sort_Slice : sort_function) (files : list File)
    (report : DuplicateReport) (d : Duplication) :
  sort_permutes sort_Slice →
  main sort_Slice (files, None) (Printed report) →
  (d ∈ Duplications report ↔
   ∃ hash, (2 ≤ length (listed_files files hash))%nat ∧
           d = listed_group files hash) ∧
  (d ∈ Duplications report →
   ∀ f, f ∈ Files d →
        f ∈ files ∧ ContentHash f = Duplication_ContentHash d ∧
        1000 ≤ Size f).
Proof.
  intros Hperm [_ Hrun]%main_Printed_inv.
  pose proof (scan_report_elem _ _ _ d Hperm Hrun) as Helem.
  split; [done|]. intros (hash & _ & ->)%Helem f Hf.
  by apply listed_files_elem in Hf.
Qed.

Lemma scan_projection_Permutation
    (sort_Slice : sort_function) (files1 files2 : list File)
    (report1 report2 : DuplicateReport) (proj : Duplication → Z) :
  sort_permutes sort_Slice →
  files1 ≡ₚ files2 →
  analyzeDuplicates sort_Slice
    (getGoogleDriveManifest (files1, None)).1 report1 →
  analyzeDuplicates sort_Slice
    (getGoogleDriveManifest (files2, None)).1 report2 →
  (∀ hash, (2 ≤ length (listed_files files1 hash))%nat →
           proj (listed_group files1 hash) = proj (listed_group files2 hash)) →
  (λ d, (Duplication_ContentHash d, proj d)) <$> Duplications report1
  ≡ₚ (λ d, (Duplication_ContentHash d, proj d)) <$> Duplications report2.
Proof.
  intros Hperm Hfiles Hrun1 Hrun2 Hproj.
  assert (∀ hash, length (listed_files files1 hash)
                  = length (listed_files files2 hash)) as Hlen.
  { intros hash. by rewrite (listed_files_Permutation _ _ hash Hfiles). }
  apply NoDup_Permutation.
  - apply (NoDup_fmap_1 fst). rewrite <- list_fmap_compose.
    by eapply report_hashes_NoDup.
  - apply (NoDup_fmap_1 fst). rewrite <- list_fmap_compose.
    by eapply report_hashes_NoDup.
  - intros [hash z]. rewrite !list_elem_of_fmap. split.
    + intros (d & [= -> ->] & Hd).
      apply (scan_report_elem _ _ _ _ Hperm Hrun1) in Hd as (hash & H2 & ->).
      exists (listed_group files2 hash). split.
      * simpl. f_equal. by apply Hproj.
      * apply (scan_report_elem _ _ _ _ Hperm Hrun2). exists hash.
        split; [|done]. by rewrite <- Hlen.
    + intros (d & [= -> ->] & Hd).
      apply (scan_report_elem _ _ _ _ Hperm Hrun2) in Hd as (hash & H2 & ->).
      rewrite <- Hlen in H2.
      exists (listed_group files1 hash). split.
      * simpl. f_equal. symmetry. by apply Hproj.
      * apply (scan_report_elem _ _ _ _ Hperm Hrun1). by exists hash.
Qed.

Lemma Zsum_tail_equal (l1 l2 : list File) :
  l1 ≡ₚ l2 →
  (∀ f g, f ∈ l1 → g ∈ l1 → Size f = Size g) →
  Zsum (Size <$> tail l1) = Zsum (Size <$> tail l2).
Proof.
  intros Hperm Hsize.
  pose proof (Zsum_fmap_Permutation Size _ _ Hperm) as Hsum.
  destruct l1 as [|f1 l1], l2 as [|f2 l2].
  - done.
  - by apply Permutation_nil_cons in Hperm.
  - symmetry in Hperm. by apply Permutation_nil_cons in Hperm.
  - rewrite !fmap_cons, !Zsum_cons in Hsum. cbn [tail].
    assert (Size f1 = Size f2) as Heq; [|lia].
    apply Hsize; [by left|]. rewrite Hperm. by left.
Qed.

(** X8. The order of the listing does not change the hashes of the groups,
    their counts and the total count. When files of the same hash have the
    same size, it does not change the sizes of the groups and the total
    size either. *)
Theorem main_listing_order
    (sort_Slice : sort_function) (files1 files2 : list File)
    (report1 report2 : DuplicateReport) :
  sort_permutes sort_Slice →
  files1 ≡ₚ files2 →
  main sort_Slice (files1, None) (Printed report1) →
  main sort_Slice (files2, None) (Printed report2) →
  (λ d, (Duplication_ContentHash d, DuplicateCount d)) <$> Duplications report1
  ≡ₚ (λ d, (Duplication_ContentHash d, DuplicateCount d))
       <$> Duplications report2 ∧
  TotalDuplicateCount report1 = TotalDuplicateCount report2 ∧
  ((∀ f g, f ∈ files1 → g ∈ files1 →
           ContentHash f = ContentHash g → Size f = Size g) →
   (λ d, (Duplication_ContentHash d, DuplicateSize d)) <$> Duplications report1
   ≡ₚ (λ d, (Duplication_ContentHash d, DuplicateSize d))
        <$> Duplications report2 ∧
   TotalDuplicateSize report1 = TotalDuplicateSize report2).
Proof.
  intros Hperm Hfiles [_ Hrun1]%main_Printed_inv [_ Hrun2]%main_Printed_inv.
  destruct (report_totals _ Hperm _ _ Hrun1) as [-> ->].
  destruct (report_totals _ Hperm _ _ Hrun2) as [-> ->].
  assert (∀ (proj : Duplication → Z) (r1 r2 : DuplicateReport),
            (λ d, (Duplication_ContentHash d, proj d)) <$> Duplications r1
            ≡ₚ (λ d, (Duplication_ContentHash d, proj d)) <$> Duplications r2 →
            Zsum (proj <$> Duplications r1) = Zsum (proj <$> Duplications r2))
    as Hsum.
  { intros proj r1 r2 Hpairs.
    apply (fmap_Permutation snd) in Hpairs.
    rewrite <- !list_fmap_compose in Hpairs. by apply Zsum_Permutation. }
  assert ((λ d, (Duplication_ContentHash d, DuplicateCount d))
            <$> Duplications report1
          ≡ₚ (λ d, (Duplication_ContentHash d, DuplicateCount d))
               <$> Duplications report2) as Hcounts.
  { apply (scan_projection_Permutation sort_Slice files1 files2); [done..|].
    intros hash _. simpl.
    by rewrite (listed_files_Permutation _ _ hash Hfiles). }
  split; [done|]. split; [by rewrite (Hsum _ _ _ Hcounts)|].
  intros Hsize.
  assert ((λ d, (Duplication_ContentHash d, DuplicateSize d))
            <$> Duplications report1
          ≡ₚ (λ d, (Duplication_ContentHash d, DuplicateSize d))
               <$> Duplications report2) as Hsizes.
  { apply (scan_projection_Permutation sort_Slice files1 files2); [done..|].
    intros hash _. simpl. f_equal. apply Zsum_tail_equal.
    - by apply listed_files_Permutation.
    - intros f g (Hf & Hfh & _)%listed_files_elem
        (Hg & Hgh & _)%listed_files_elem.
      apply Hsize; [done|done|congruence]. }
  split; [done|]. by rewrite (Hsum _ _ _ Hsizes).
Qed.

(** ** Panics on the store *)

Lemma dangling_bucket_frame h h' files :
  frame h h' → is_Some (slice_ptrs files h) →
  dangling_bucket h' files ↔ dangling_bucket h files.
Proof.
  intros Hframe [ps Hps]. unfold dangling_bucket.
  pose proof (slice_ptrs_frame _ _ _ _ Hframe Hps) as Hps'.
  destruct Hframe as [[Hobj _] _]. rewrite Hobj.
  split; intros (Hlen & ps' & Hps'' & Hex); (split; [done|]);
    exists ps; (split; [done|]); congruence.
Qed.

Section StoreExtras.
Variable surplus : nat → nat → nat.

Lemma kept_is_Some h p : kept h p = true → is_Some (objects h !! p).
Proof. unfold kept. by destruct (objects h !! p). Qed.

Lemma filterDuplicateFiles_at_ptrs h files ps :
  slice_ptrs files h = Some ps →
  Forall (λ p, is_Some (objects h !! p)) ps →
  ∃ filtered h',
    filterDuplicateFiles_at surplus files h = Some (filtered, h') ∧
    frame h h' ∧ owned h h' filtered ∧
    slice_ptrs filtered h' = Some (filter (λ p, kept h p = true) ps).
Proof.
  intros Hps Hvalid.
  destruct (mapM_is_Some_2 (λ p, objects h !! p) ps Hvalid) as [fs Hfs].
  destruct (filter_loop_at surplus h files ps fs Hps Hfs (s_len files) 0
              nil_slice h [])
    as (filtered & h' & Hrun & Hframe & Howned & Hptrs);
    [done|apply frame_refl|by left|done|].
  exists filtered, h'. by rewrite drop_0 in Hptrs.
Qed.

Lemma filter_loop_at_panic h0 files ps :
  slice_ptrs files h0 = Some ps →
  ∀ (k i : nat) filtered h acc,
    (i + k ≤ s_len files)%nat →
    frame h0 h → owned h0 h filtered → slice_ptrs filtered h = Some acc →
    (∃ j p, (i ≤ j < i + k)%nat ∧ ps !! j = Some p ∧ objects h0 !! p = None) →
    for_index
      (λ filteredFiles i,
         let! file := index files i in
         let! ignored := ignoreFile_at file in
         if negb ignored then append surplus filteredFiles file
         else ret filteredFiles)
      i k filtered h = None.
Proof.
  intros Hps.
  induction k as [|k IH];
    intros i filtered h acc Hik Hframe Howned Hacc (j & p & Hj & Hp & Hnone).
  { lia. }
  rewrite for_index_S.
  destruct (slice_ptrs_index files h ps i) as (q & Hq & Hidx);
    [by eapply slice_ptrs_frame|lia|].
  rewrite (bind_Some _ _ _ _ _ Hidx).
  assert (objects h = objects h0) as Hobj by (by destruct Hframe as [[? _] _]).
  destruct (objects h0 !! q) as [f|] eqn:Hf.
  - assert (j ≠ i) as Hji by (intros ->; congruence).
    rewrite <- Hobj in Hf.
    rewrite (bind_Some _ _ _ _ _ (ignoreFile_at_spec _ _ _ Hf)).
    destruct (ignoreFile f); simpl.
    + apply (IH _ _ _ acc); [lia|done..|].
      exists j, p. repeat split; (done || lia).
    + destruct (append_spec surplus h0 h filtered q acc Hframe Howned Hacc)
        as (s' & h' & Happ & Hframe' & Howned' & Hacc' & _).
      rewrite Happ. apply (IH _ _ _ (acc ++ [q])); [lia|done..|].
      exists j, p. repeat split; (done || lia).
  - unfold bind, ignoreFile_at, bind, load_Size. by rewrite Hobj, Hf.
Qed.

Lemma filterDuplicateFiles_at_None h files ps :
  slice_ptrs files h = Some ps →
  filterDuplicateFiles_at surplus files h = None ↔
  Exists (λ p, objects h !! p = None) ps.
Proof.
  intros Hps. split.
  - intros Hnone.
    destruct (mapM (λ p, objects h !! p) ps) as [fs|] eqn:Hfs.
    + destruct (filterDuplicateFiles_at_ptrs h files ps Hps)
        as (filtered & h' & Hrun & _); [|congruence].
      apply mapM_is_Some_1. by rewrite Hfs.
    + by apply mapM_None_1 in Hfs.
  - intros (p & Hp & Hnone)%Exists_exists.
    apply list_elem_of_lookup in Hp as [j Hj].
    pose proof (slice_ptrs_length _ _ _ Hps) as Hlen.
    pose proof (lookup_lt_Some _ _ _ Hj).
    apply (filter_loop_at_panic h files ps Hps (s_len files) 0 nil_slice h []);
      [lia|apply frame_refl|by left|done|].
    exists j, p. repeat split; (done || lia).
Qed.

Lemma analyze_body_at_cases h report hash files ps :
  slice_ptrs files h = Some ps →
  (dangling_bucket h files ∧
   analyze_body_at surplus report hash files h = None) ∨
  (¬ dangling_bucket h files ∧
   ∃ report' h',
     analyze_body_at surplus report hash files h = Some (report', h') ∧
     frame h h').
Proof.
  intros Hps. unfold analyze_body_at, dangling_bucket.
  destruct (Nat.leb_spec (s_len files) 1) as [Hle|Hgt].
  { right. split; [intros [? _]; lia|].
    exists report, h. split; [done|apply frame_refl]. }
  destruct (mapM (λ p, objects h !! p) ps) as [fs|] eqn:Hfs.
  - right. split.
    { intros (_ & ps' & Hps' & Hex). rewrite Hps in Hps'.
      injection Hps' as <-. apply mapM_None_2 in Hex. congruence. }
    assert (slice_view files h = Some fs) as Hview
      by (unfold slice_view; by rewrite Hps).
    destruct (filterDuplicateFiles_at_spec surplus h files fs Hview)
      as (filtered & h' & Hrun & Hframe & _ & Hfiltered).
    rewrite (bind_Some _ _ _ _ _ Hrun).
    destruct (s_len filtered <=? 1)%nat; [by exists report, h'|].
    rewrite (bind_Some _ _ _ _ _ (count_duplicates_at_spec _ _ _ Hfiltered)).
    by eexists _, h'.
  - left. apply mapM_None_1 in Hfs. split.
    + split; [lia|]. by exists ps.
    + unfold bind.
      by rewrite (proj2 (filterDuplicateFiles_at_None h files ps Hps)).
Qed.

Lemma analyze_loop_at_None entries :
  ∀ h report,
    Forall (λ e, is_Some (slice_ptrs e.2 h)) entries →
    analyze_loop_at surplus entries report h = None ↔
    Exists (λ e, dangling_bucket h e.2) entries.
Proof.
  induction entries as [|[hash files] entries IH]; intros h report Hread.
  { split; [done|]. by intros ?%Exists_nil. }
  apply Forall_cons in Hread as [[ps Hps] Hread]. simpl in Hps.
  cbn [analyze_loop_at]. rewrite Exists_cons. simpl.
  destruct (analyze_body_at_cases h report hash files ps Hps)
    as [[Hdangling Hnone]|(Hok & report' & h' & Hrun & Hframe)].
  - unfold bind. rewrite Hnone. split; [by left|done].
  - rewrite (bind_Some _ _ _ _ _ Hrun).
    rewrite (IH h' report').
    + assert (Exists (λ e, dangling_bucket h' e.2) entries
              ↔ Exists (λ e, dangling_bucket h e.2) entries) as ->; [|tauto].
      rewrite !Exists_exists. rewrite Forall_forall in Hread.
      split; intros (e & He & Hd); exists e; (split; [done|]);
        by apply (dangling_bucket_frame h h'); [|apply Hread|].
    + eapply Forall_impl; [exact Hread|]. intros e [ps' Hps'].
      exists ps'. by eapply slice_ptrs_frame.
Qed.

End StoreExtras.

(** X9. On a manifest whose slices lie within their arrays, a call of
    [analyzeDuplicates] panics exactly when some bucket of at least two
    entries holds a pointer to no record; a bucket of fewer entries is
    skipped before any of its pointers is followed. *)
Theorem analyzeDuplicates_at_panics
    (surplus : nat → nat → nat)
    (sort_Slice : sort_function) (manifest : loc) (h : heap)
    (outcome : option (DuplicateReport_at * heap)) :
  (∀ hash files,
     map_at manifest h !! hash = Some files → is_Some (slice_ptrs files h)) →
  analyzeDuplicates_at surplus sort_Slice manifest h outcome →
  outcome = None ↔
  ∃ hash files,
    map_at manifest h !! hash = Some files ∧ dangling_bucket h files.
Proof.
  intros Hread [entries Hentries]. unfold analyzeDuplicates_range_at.
  assert (Forall (λ e, is_Some (slice_ptrs e.2 h)) entries) as Hall.
  { apply Forall_forall. intros [hash files] Hin. simpl.
    rewrite Hentries in Hin. apply elem_of_map_to_list in Hin.
    by eapply Hread. }
  pose proof (analyze_loop_at_None surplus entries h empty_report_at Hall)
    as Hloop.
  assert (Exists (λ e, dangling_bucket h e.2) entries ↔
          ∃ hash files,
            map_at manifest h !! hash = Some files ∧ dangling_bucket h files)
    as <-.
  { rewrite Exists_exists. split.
    - intros ([hash files] & Hin & Hd). exists hash, files. split; [|done].
      rewrite Hentries in Hin. by apply elem_of_map_to_list in Hin.
    - intros (hash & files & Hin & Hd). exists (hash, files). split; [|done].
      rewrite Hentries. by apply elem_of_map_to_list. }
  rewrite <- Hloop. unfold bind.
  by destruct (analyze_loop_at surplus entries empty_report_at h)
    as [[report h']|].
Qed.

(** X10. On a slice that lies within its array and holds pointers to
    records, [filterDuplicateFiles] returns a slice of the pointers that
    pass the filter, the same pointers in the same order; the slice is
    empty without capacity or lives in an array that the store before the
    call does not have, and the store before the call is unchanged. *)
Theorem filterDuplicateFiles_at_new_slice
    (surplus : nat → nat → nat) (h : heap) (files : slice) (ps : list loc) :
  slice_ptrs files h = Some ps →
  Forall (λ p, is_Some (objects h !! p)) ps →
  ∃ filtered h',
    filterDuplicateFiles_at surplus files h = Some (filtered, h') ∧
    slice_ptrs filtered h' = Some (filter (λ p, kept h p = true) ps) ∧
    ((s_len filtered = O ∧ s_cap filtered = O) ∨
     (s_array filtered ∉ dom (arrays h))) ∧
    objects h' = objects h ∧
    (∀ a, a ∈ dom (arrays h) → arrays h' !! a = arrays h !! a) ∧
    slice_ptrs files h' = Some ps.
Proof.
  intros Hps Hvalid.
  destruct (filterDuplicateFiles_at_ptrs surplus h files ps Hps Hvalid)
    as (filtered & h' & Hrun & Hframe & Howned & Hptrs).
  exists filtered, h'. split; [done|]. split; [done|].
  split; [destruct Howned as [?|[? _]]; [by left|by right]|].
  pose proof (slice_ptrs_frame _ _ _ _ Hframe Hps).
  by destruct Hframe as [[? ?] ?].
Qed.

(** ** The printed report *)

Section PrintProofs.
Variable fmt_d : Z → string.
Variable humanize_Bytes : Z → string.
Variable english_Plural : Z → string → string → string.

Lemma print_paths (files : list File) (out : list string) idx :
  for_range (λ out (_ : nat) f, out ++ [Println (Path f)]) idx files out
  = out ++ ((λ f, Println (Path f)) <$> files).
Proof.
  revert out idx. induction files as [|f files IH]; intros out idx; simpl.
  - by rewrite app_nil_r.
  - by rewrite IH, <- app_assoc.
Qed.

Lemma print_group_block out group duplication :
  print_group fmt_d humanize_Bytes english_Plural (out, group) duplication
  = (out ++ group_block fmt_d humanize_Bytes english_Plural group duplication,
     int_add group 1).
Proof.
  unfold print_group, group_block. simpl. rewrite print_paths.
  f_equal. by rewrite <- !app_assoc.
Qed.

Lemma print_groups (ds : list Duplication) out (group : Z) idx :
  0 ≤ group → group + Z.of_nat (length ds) ≤ max_int →
  for_range
    (λ state (_ : nat) duplication,
       print_group fmt_d humanize_Bytes english_Plural state duplication)
    idx ds (out, group)
  = (out ++ concat
            (imap (λ i d, group_block fmt_d humanize_Bytes english_Plural
                            (group + Z.of_nat i) d) ds),
     group + Z.of_nat (length ds)).
Proof.
  revert out group idx.
  induction ds as [|d ds IH]; intros out group idx Hgroup Hmax.
  - simpl. by rewrite app_nil_r, Z.add_0_r.
  - cbn [for_range]. rewrite print_group_block.
    simpl in Hmax. unfold int_add.
    rewrite to_int_small by (unfold max_int in *; lia).
    rewrite IH by lia.
    cbn [imap concat length]. rewrite Z.add_0_r, <- app_assoc.
    f_equal; [|lia]. do 3 f_equal.
    apply imap_ext. intros i d' _. simpl. f_equal. lia.
Qed.
End PrintProofs.

(** X11. The groups are printed in the order of the report and numbered from
    1: after the line of the totals come, for each group, its heading with
    its number, the paths of its files in order and an empty line, and an
    empty line ends the output. *)
Theorem print_report_blocks
    (fmt_d : Z → string) (humanize_Bytes : Z → string)
    (english_Plural : Z → string → string → string)
    (report : DuplicateReport) :
  Z.of_nat (length (Duplications report)) < max_int →
  print_report fmt_d humanize_Bytes english_Plural report
  = [ fmt_d (Z.of_nat (length (Duplications report))) +:+
      " duplicate file groups found (" +:+
      fmt_d (TotalDuplicateCount report) +:+ " files, " +:+
      humanize_Bytes (TotalDuplicateSize report) +:+ ")." +:+
      newline +:+ newline ] ++
    concat
      (imap (λ i d, group_block fmt_d humanize_Bytes english_Plural
                      (Z.of_nat i + 1) d)
         (Duplications report)) ++
    [Println ""].
Proof.
  intros Hlen. unfold print_report.
  rewrite print_groups by lia. cbn [fst].
  rewrite <- app_assoc. do 3 f_equal.
  apply imap_ext. intros i d _. simpl. f_equal. lia.
Qed.

(** ** Examples and witnesses of the further properties *)

(** With two files of one hash and different sizes, the size of the group
    depends on which of them the listing has first. *)
Example keeper_depends_on_order :
  DuplicateSize <$>
    Duplications
      (analyzeDuplicates_range insertionSort
         (map_to_list
            (getGoogleDriveManifest
               ([mkFile "a" 2000 "h1"; mkFile "b" 3000 "h1"], None)).1))
  = [3000] ∧
  DuplicateSize <$>
    Duplications
      (analyzeDuplicates_range insertionSort
         (map_to_list
            (getGoogleDriveManifest
               ([mkFile "b" 3000 "h1"; mkFile "a" 2000 "h1"], None)).1))
  = [2000].
Proof. split; vm_compute; reflexivity. Qed.

(** The nil pointer in a bucket of three entries makes the call panic. *)
Example store_nil_run :
  analyzeDuplicates_range_at surplus_double insertionSort
    (map_to_list (map_at 20%nat store_nil)) store_nil
  = None.
Proof. vm_compute. reflexivity. Qed.

Lemma analyzeDuplicates_distinct_hashes_witness :
  NoDup
    (Duplication_ContentHash <$>
       Duplications
         (analyzeDuplicates_range insertionSort (map_to_list scenario_D))).
Proof.
  apply (analyzeDuplicates_distinct_hashes insertionSort scenario_D _
           insertionSort_permutes).
  by apply analyzeDuplicates_run.
Defined.

Lemma analyzeDuplicates_group_origin_witness :
  let d := {| Duplication_ContentHash := "h1";
              Files := [mkFile "b" 2000 "h1"; mkFile "c" 2000 "h1"];
              DuplicateCount := 1;
              DuplicateSize := 2000 |} in
  ∃ files,
    scenario_C !! Duplication_ContentHash d = Some files ∧
    Files d = filterDuplicateFiles files ∧
    (2 ≤ length (Files d) ≤ length files)%nat ∧
    DuplicateCount d = to_int (Z.of_nat (length (Files d)) - 1) ∧
    (Z.of_nat (length files) ≤ max_int →
     1 ≤ DuplicateCount d < Z.of_nat (length files)).
Proof.
  apply (analyzeDuplicates_group_origin insertionSort scenario_C
           (analyzeDuplicates_range insertionSort (map_to_list scenario_C))
           _ insertionSort_permutes).
  - by apply analyzeDuplicates_run.
  - vm_compute. apply list_elem_of_here.
Defined.

Lemma analyzeDuplicates_empty_witness :
  let report :=
    analyzeDuplicates_range insertionSort (map_to_list scenario_A) in
  (Duplications report = [] ↔
   ∀ hash files,
     scenario_A !! hash = Some files →
     (length (filterDuplicateFiles files) < 2)%nat) ∧
  (Duplications report = [] →
   TotalDuplicateCount report = 0 ∧ TotalDuplicateSize report = 0).
Proof.
  apply (analyzeDuplicates_empty insertionSort scenario_A _
           insertionSort_permutes).
  by apply analyzeDuplicates_run.
Defined.

Lemma main_report_groups_witness :
  let report :=
    analyzeDuplicates_range insertionSort
      (map_to_list (getGoogleDriveManifest (listing_B, None)).1) in
  let d := listed_group listing_B "h1" in
  (d ∈ Duplications report ↔
   ∃ hash, (2 ≤ length (listed_files listing_B hash))%nat ∧
           d = listed_group listing_B hash) ∧
  (d ∈ Duplications report →
   ∀ f, f ∈ Files d →
        f ∈ listing_B ∧ ContentHash f = Duplication_ContentHash d ∧
        1000 ≤ Size f).
Proof.
  apply (main_report_groups insertionSort listing_B _ _
           insertionSort_permutes).
  apply main_report; [reflexivity|]. by apply analyzeDuplicates_run.
Defined.

Lemma main_listing_order_witness :
  let report1 :=
    analyzeDuplicates_range insertionSort
      (map_to_list (getGoogleDriveManifest (listing_B, None)).1) in
  let report2 :=
    analyzeDuplicates_range insertionSort
      (map_to_list (getGoogleDriveManifest (listing_B', None)).1) in
  (λ d, (Duplication_ContentHash d, DuplicateCount d)) <$> Duplications report1
  ≡ₚ (λ d, (Duplication_ContentHash d, DuplicateCount d))
       <$> Duplications report2 ∧
  TotalDuplicateCount report1 = TotalDuplicateCount report2 ∧
  ((∀ f g, f ∈ listing_B → g ∈ listing_B →
           ContentHash f = ContentHash g → Size f = Size g) →
   (λ d, (Duplication_ContentHash d, DuplicateSize d)) <$> Duplications report1
   ≡ₚ (λ d, (Duplication_ContentHash d, DuplicateSize d))
        <$> Duplications report2 ∧
   TotalDuplicateSize report1 = TotalDuplicateSize report2).
Proof.
  apply (main_listing_order insertionSort listing_B listing_B' _ _
           insertionSort_permutes).
  - unfold listing_B, listing_B'.
    apply (Permutation_app_comm [_; _] [_]).
  - apply main_report; [reflexivity|]. by apply analyzeDuplicates_run.
  - apply main_report; [reflexivity|]. by apply analyzeDuplicates_run.
Defined.

Lemma analyzeDuplicates_at_panics_witness :
  analyzeDuplicates_range_at surplus_double insertionSort
    (map_to_list (map_at 20%nat store_nil)) store_nil = None ↔
  ∃ hash files,
    map_at 20%nat store_nil !! hash = Some files ∧
    dangling_bucket store_nil files.
Proof.
  apply (analyzeDuplicates_at_panics surplus_double insertionSort
           20%nat store_nil).
  - intros hash files Hfiles.
    change (map_at 20%nat store_nil)
      with ({[ "h1" := mkSlice 10%nat 0 3 3 ]} : gmap string slice) in Hfiles.
    apply lookup_singleton_Some in Hfiles as [_ <-].
    vm_compute. eauto.
  - by apply analyzeDuplicates_at_run.
Defined.

Lemma filterDuplicateFiles_at_new_slice_witness :
  ∃ filtered h',
    filterDuplicateFiles_at surplus_double (mkSlice 10%nat 0 3 3) store_C
      = Some (filtered, h') ∧
    slice_ptrs filtered h'
      = Some (filter (λ p, kept store_C p = true) [1; 2; 3]%nat) ∧
    ((s_len filtered = O ∧ s_cap filtered = O) ∨
     (s_array filtered ∉ dom (arrays store_C))) ∧
    objects h' = objects store_C ∧
    (∀ a, a ∈ dom (arrays store_C) → arrays h' !! a = arrays store_C !! a) ∧
    slice_ptrs (mkSlice 10%nat 0 3 3) h' = Some [1; 2; 3]%nat.
Proof.
  apply (filterDuplicateFiles_at_new_slice surplus_double store_C
           (mkSlice 10%nat 0 3 3) [1; 2; 3]%nat).
  - reflexivity.
  - repeat constructor; vm_compute; eauto.
Defined.

Lemma print_report_blocks_witness :
  let report :=
    analyzeDuplicates_range insertionSort (map_to_list scenario_D) in
  let fmt_d := λ z : Z, if z =? 1 then "1" else "2" in
  let humanize_Bytes := λ _ : Z, "" in
  let english_Plural := λ (_ : Z) (s _ : string), s in
  print_report fmt_d humanize_Bytes english_Plural report
  = [ fmt_d (Z.of_nat (length (Duplications report))) +:+
      " duplicate file groups found (" +:+
      fmt_d (TotalDuplicateCount report) +:+ " files, " +:+
      humanize_Bytes (TotalDuplicateSize report) +:+ ")." +:+
      newline +:+ newline ] ++
    concat
      (imap (λ i d, group_block fmt_d humanize_Bytes english_Plural
                      (Z.of_nat i + 1) d)
         (Duplications report)) ++
    [Println ""].
Proof.
  apply print_report_blocks. vm_compute. reflexivity.
Defined.
